(** * aktools: the gated invocation layer of [aktools/core/api.py]

    A shallow embedding of the rate limiter, the request shaper, the
    result cache and the two HTTP endpoints, with the properties the
    specification states about them.

    Conventions of the embedding.
    - Clock readings ([time.time()], the cache timer) and durations are
      Python floats in the source; here they are exact rationals [Q].
      Every reading is an input of the operation that takes it.
    - A Python exception is a value of [exn]; a call that may raise
      returns a [result].
    - Module-level globals ([rate_limiter], [api_cache], [enable_cache])
      are fields of an explicit [State] that every call threads. *)

From Stdlib Require Import QArith Lqa ZArith Lia Ascii.
From stdpp Require Import base option list strings gmap.

Local Open Scope Z_scope.

(** ** Python values shared by all components *)

Module Py.

(** The exception classes the source distinguishes: only [KeyError]
    is ever caught by name; the others are told apart for the trace. *)
Inductive exn : Type :=
| KeyError (detail : string)
| IndexError (detail : string)
| ValueError (detail : string)
| OtherError (detail : string).

Inductive result (A : Type) : Type :=
| Ok (a : A)
| Raise (e : exn).
Arguments Ok {A} a.
Arguments Raise {A} e.

Definition Qltb (x y : Q) : bool := negb (Qle_bool y x).

End Py.
Import Py.

(** ** [class RateLimiter] *)

Module RateLimiter.

(** [self.max_requests], [self.window_seconds] and the deque
    [self.request_timestamps], oldest grant first.  The lock only
    serialises the calls; a serialised history is a sequence of calls
    on this value. *)
Record t : Type := mk {
  max_requests : Z;
  window_seconds : Z;
  request_timestamps : list Q
}.

Definition __init__ (max_requests window_seconds : Z) : t :=
  mk max_requests window_seconds [].

(** [while ts and ts[0] < cutoff_time: ts.popleft()] *)
Fixpoint popleft_while (cutoff_time : Q) (ts : list Q) : list Q :=
  match ts with
  | [] => []
  | t0 :: rest =>
      if Qltb t0 cutoff_time then popleft_while cutoff_time rest else ts
  end.

Definition _clean_old_requests (self : t) (current_time : Q) : t :=
  let cutoff_time := (current_time - inject_Z (window_seconds self))%Q in
  mk (max_requests self) (window_seconds self)
     (popleft_while cutoff_time (request_timestamps self)).

Definition append (self : t) (current_time : Q) : t :=
  mk (max_requests self) (window_seconds self)
     (request_timestamps self ++ [current_time]).

(** What one [acquire] reads from the outside world: [time.time()] on
    entry, the draw of [random.uniform(0.1, 0.5)], and [time.time()]
    after [time.sleep] has returned. *)
Record clock : Type := Clock {
  now : Q;
  jitter : Q;
  now_after_sleep : Q
}.

(** [acquire] returns [None] in Python; the embedding returns the
    duration handed to [time.sleep], if any, so that blocking can be
    observed.  [self.request_timestamps[0]] on an empty deque raises
    [IndexError]. *)
Definition acquire (self : t) (clk : clock) : t * result (option Q) :=
  let current_time := now clk in
  let self1 := _clean_old_requests self current_time in
  if bool_decide (max_requests self1 <= Z.of_nat (length (request_timestamps self1)))
  then
    match request_timestamps self1 with
    | [] => (self1, Raise (IndexError "deque index out of range"))
    | oldest_request :: _ =>
        let wait_time :=
          (oldest_request + inject_Z (window_seconds self1) - current_time)%Q in
        if Qltb 0 wait_time then
          let total_wait := (wait_time + jitter clk)%Q in
          let current_time' := now_after_sleep clk in
          let self2 := _clean_old_requests self1 current_time' in
          (append self2 current_time', Ok (Some total_wait))
        else
          (append self1 current_time, Ok None)
    end
  else (append self1 current_time, Ok None).

(** [get_remaining_requests]: cleans under the lock, then reports. *)
Definition get_remaining_requests (self : t) (current_time : Q) : t * Z :=
  let self1 := _clean_old_requests self current_time in
  (self1, Z.max 0 (max_requests self1 - Z.of_nat (length (request_timestamps self1)))).

(** The world behaves: the jitter is in its interval and the clock
    read after the sleep is at least the sleep later. *)
Definition clock_ok (clk : clock) (total_wait : Q) : Prop :=
  (1 # 10 <= jitter clk <= 1 # 2)%Q /\
  (now clk + total_wait <= now_after_sleep clk)%Q.

(** Timestamps recorded in the trailing window that ends at [t_end]:
    [t_end - window < ts <= t_end]. *)
Definition in_window (self : t) (t_end ts : Q) : bool :=
  Qltb (t_end - inject_Z (window_seconds self)) ts && Qle_bool ts t_end.

Definition grants_in_window (self : t) (t_end : Q) : nat :=
  length (filter (fun ts => in_window self t_end ts = true)
                 (request_timestamps self)).

(** A serialised history of [acquire] calls; stops at the first call
    that raises.  Returns the sleeps of the calls made. *)
Fixpoint acquire_all (self : t) (clks : list clock) : t * list (option Q) :=
  match clks with
  | [] => (self, [])
  | clk :: rest =>
      match acquire self clk with
      | (self', Ok slept) =>
          let '(self'', sleeps) := acquire_all self' rest in
          (self'', slept :: sleeps)
      | (self', Raise _) => (self', [])
      end
  end.

End RateLimiter.

(** ** Python [str] methods used by the endpoints *)

Module Str.

(** The characters the endpoints look for or insert. *)
Definition dquote : ascii := Ascii.ascii_of_nat 34.
Definition squote : ascii := Ascii.ascii_of_nat 39.
Definition plus : ascii := Ascii.ascii_of_nat 43.
Definition amp : ascii := Ascii.ascii_of_nat 38.
Definition equals : ascii := Ascii.ascii_of_nat 61.

Definition chr (c : ascii) : string := String c EmptyString.

(** [s.replace(old, new)] for a one-character [old]: every occurrence,
    left to right. *)
Fixpoint replace (old : ascii) (new : string) (s : string) : string :=
  match s with
  | EmptyString => EmptyString
  | String c rest =>
      if Ascii.eqb c old then new +:+ replace old new rest
      else String c (replace old new rest)
  end.

(** [sub in s] *)
Fixpoint contains (sub s : string) : bool :=
  String.prefix sub s ||
  match s with
  | EmptyString => false
  | String _ rest => contains sub rest
  end.

(** [s.split(sep=sep, maxsplit=1)] for a one-character [sep]: the part
    before the first [sep] and, when there is one, the part after it.
    The list has one element when [sep] does not occur. *)
Fixpoint split1 (sep : ascii) (s : string) : string * option string :=
  match s with
  | EmptyString => (EmptyString, None)
  | String c rest =>
      if Ascii.eqb c sep then (EmptyString, Some rest)
      else let '(head, tail) := split1 sep rest in (String c head, tail)
  end.

(** [c in s] for a character, and [s[-1]] when [s] is not empty. *)
Fixpoint occurs (c : ascii) (s : string) : bool :=
  match s with
  | EmptyString => false
  | String a rest => Ascii.eqb a c || occurs c rest
  end.

Fixpoint last (s : string) : option ascii :=
  match s with
  | EmptyString => None
  | String a EmptyString => Some a
  | String _ rest => last rest
  end.

End Str.

(** ** Request shaper: [get_browser_headers] and [_patched_request] *)

Module Shaper.

Definition q : string := Str.chr Str.dquote.

(** [DEFAULT_BROWSER_HEADERS] *)
Definition DEFAULT_BROWSER_HEADERS : gmap string string :=
  list_to_map [
    ("Accept", "text/html,application/xhtml+xml,application/xml;q=0.9,image/avif,image/webp,image/apng,*/*;q=0.8,application/signed-exchange;v=b3;q=0.7");
    ("Accept-Language", "zh-CN,zh;q=0.9,en;q=0.8,en-GB;q=0.7,en-US;q=0.6");
    ("Accept-Encoding", "gzip, deflate, br");
    ("Connection", "keep-alive");
    ("Upgrade-Insecure-Requests", "1");
    ("Sec-Fetch-Dest", "document");
    ("Sec-Fetch-Mode", "navigate");
    ("Sec-Fetch-Site", "none");
    ("Sec-Fetch-User", "?1");
    ("Cache-Control", "max-age=0");
    ("Sec-Ch-Ua", q +:+ "Not_A Brand" +:+ q +:+ ";v=" +:+ q +:+ "8" +:+ q +:+ ", "
                  +:+ q +:+ "Chromium" +:+ q +:+ ";v=" +:+ q +:+ "120" +:+ q +:+ ", "
                  +:+ q +:+ "Google Chrome" +:+ q +:+ ";v=" +:+ q +:+ "120" +:+ q);
    ("Sec-Ch-Ua-Mobile", "?0");
    ("Sec-Ch-Ua-Platform", q +:+ "Windows" +:+ q)
  ].

(** [d.update(other)]: the keys of [other] overwrite those of [d]. *)
Definition update (d other : gmap string string) : gmap string string :=
  other ∪ d.

(** The keyword arguments of [Session.request] that the patch reads.
    [None] stands for both an absent keyword and an explicit [None]. *)
Record kwargs : Type := Kwargs {
  headers : option (gmap string string);
  proxies : option (gmap string string)
}.

Section Patched.
(** Fixed when the module loads: the agent string chosen by
    [fake_useragent] or the fallback, and the proxy table read from
    the environment. *)
Variable CHROME_USER_AGENT : string.
Variable PROXIES : gmap string string.

Definition get_browser_headers : gmap string string :=
  <["User-Agent" := CHROME_USER_AGENT]> DEFAULT_BROWSER_HEADERS.

(** Returns the keyword arguments handed to [_original_request] and
    the delay slept before it, if [AKTOOLS_RANDOM_DELAY] is on. *)
Definition _patched_request (random_delay : bool) (delay : Q)
    (kw : kwargs) : kwargs * option Q :=
  let headers' :=
    match headers kw with
    | None => get_browser_headers
    | Some caller => update get_browser_headers caller
    end in
  let proxies' :=
    if bool_decide (PROXIES ≠ ∅) && bool_decide (proxies kw = None)
    then Some PROXIES else proxies kw in
  (Kwargs (Some headers') proxies',
   if random_delay then Some delay else None).
End Patched.

End Shaper.

(** ** The result cache [api_cache = TTLCache(maxsize, ttl)] *)

Module TTLCache.

(** Modelled from the spec: [cachetools.keys.hashkey], third-party and
    not among the sources.  Section 3: the key is "derived
    deterministically from (Operation Identifier, canonical string form
    of Parameter Set)"; here the pair of the two arguments, [eval_str]
    being [None] for a call without parameters. *)
Definition key : Type := string * option string.

Definition hashkey (item_id : string) (eval_str : option string) : key :=
  (item_id, eval_str).

(** One entry: the stored result of [_fetch] (which may be [None])
    and the time from which it is no longer served. *)
Record link : Type := Link {
  link_key : key;
  link_value : option string;
  link_expires : Q
}.

(** Modelled from the spec: the class [TTLCache] of the third-party
    package [cachetools], of which [api_cache] is an instance; it is
    not among the sources.  Section 4.3: "lookup(key) -> Entry | miss;
    store(key, payload); entries expire ttlSeconds after insertion;
    capacity bounded at maxEntries, evicting least-recently-used on
    overflow", and P3: an entry inserted at [T] is unreachable at any
    time [>= T + ttlSeconds].  [links] holds the entries from least to
    most recently used; a lookup that finds the key and a store both
    count as a use. *)
Record t : Type := mk {
  maxsize : Z;
  ttl : Z;
  links : list link
}.

Definition __init__ (maxsize ttl : Z) : t := mk maxsize ttl [].

Definition with_links (self : t) (ls : list link) : t :=
  mk (maxsize self) (ttl self) ls.

Definition live (time : Q) (l : link) : bool := Qltb time (link_expires l).

Fixpoint find (k : key) (ls : list link) : option link :=
  match ls with
  | [] => None
  | l :: rest => if decide (link_key l = k) then Some l else find k rest
  end.

Definition remove (k : key) (ls : list link) : list link :=
  filter (λ l, link_key l ≠ k) ls.

(** Modelled from the spec: "entries expire ttlSeconds after
    insertion".  Drops every entry whose time to live has elapsed at
    [time]. *)
Definition expire (time : Q) (ls : list link) : list link :=
  filter (λ l, live time l = true) ls.

(** Modelled from the spec: "capacity bounded at maxEntries, evicting
    least-recently-used on overflow".  Makes room for one more entry:
    drops from the least recently used end while the cache is full. *)
Fixpoint evict (maxsize : Z) (ls : list link) : list link :=
  match ls with
  | [] => []
  | _ :: rest =>
      if bool_decide (Z.of_nat (length ls) + 1 > maxsize)
      then evict maxsize rest else ls
  end.

(** Modelled from the spec: "lookup(key) -> Entry | miss", as the
    subscript [self[key]] at timer reading [time].  An entry is served
    while [time] is before its expiry; a miss raises [KeyError].  A key
    that is found becomes the most recently used. *)
Definition __getitem__ (self : t) (k : key) (time : Q)
    : t * result (option string) :=
  match find k (links self) with
  | None => (self, Raise (KeyError (fst k)))
  | Some l =>
      let self' := with_links self (remove k (links self) ++ [l]) in
      if live time l then (self', Ok (link_value l))
      else (self', Raise (KeyError (fst k)))
  end.

(** Modelled from the spec: "store(key, payload)", as the assignment
    [self[key] = value] at timer reading [time].  Expired entries go
    first; a new key evicts on overflow; the entry stored expires [ttl]
    after [time] and is the most recently used.  Every entry has size 1,
    and a cache that can hold nothing refuses the value. *)
Definition __setitem__ (self : t) (k : key) (value : option string) (time : Q)
    : t * result unit :=
  let ls1 := expire time (links self) in
  if bool_decide (1 > maxsize self)
  then (with_links self ls1, Raise (ValueError "value too large"))
  else
    let ls2 :=
      match find k ls1 with
      | Some _ => ls1
      | None => evict (maxsize self) ls1
      end in
    let l := Link k value (time + inject_Z (ttl self))%Q in
    (with_links self (remove k ls2 ++ [l]), Ok tt).

(** What a lookup at [time] would serve, without touching the cache. *)
Definition peek (self : t) (k : key) (time : Q) : option (option string) :=
  match find k (links self) with
  | Some l => if live time l then Some (link_value l) else None
  | None => None
  end.

(** Every entry for [k] stops being served at [deadline] at the
    latest. *)
Definition expires_by (k : key) (deadline : Q) (ls : list link) : Prop :=
  forall l, l ∈ ls -> link_key l = k -> (link_expires l <= deadline)%Q.

(** Two caches hold the same entries: every key has the same value
    and the same expiry in both; only the order of use may differ. *)
Definition same_entries (c c' : t) : Prop :=
  maxsize c' = maxsize c /\ ttl c' = ttl c /\
  forall k, find k (links c') = find k (links c).

(** The operations a client can run, for statements over histories. *)
Inductive op : Type :=
| Get (k : key) (time : Q)
| Set_ (k : key) (value : option string) (time : Q).

Definition step (self : t) (o : op) : t :=
  match o with
  | Get k time => fst (__getitem__ self k time)
  | Set_ k v time => fst (__setitem__ self k v time)
  end.

Definition run (self : t) (ops : list op) : t := foldl step self ops.

Definition stores (k : key) (o : op) : bool :=
  match o with
  | Get _ _ => false
  | Set_ k' _ _ => bool_decide (k' = k)
  end.

End TTLCache.

(** ** [invoke_ak_api] *)

Module Gateway.

Inductive cache_status : Type := HIT | MISS | DISABLED.

Definition cache_status_str (c : cache_status) : string :=
  match c with HIT => "HIT" | MISS => "MISS" | DISABLED => "DISABLED" end.

(** What [eval(cmd)] followed by [to_json] does: the provider returns
    a frame (here already its JSON text), returns [None], or raises. *)
Inductive outcome : Type :=
| Frame (json : string)
| NoFrame
| Raises (e : exn).

(** The module-level globals, and the trace of provider calls made so
    far (command text and what came of it). *)
Record State : Type := mkState {
  rate_limiter : RateLimiter.t;
  api_cache : TTLCache.t;
  enable_cache : bool;
  provider_calls : list (string * outcome)
}.

Definition with_rate_limiter (s : State) (rl : RateLimiter.t) : State :=
  mkState rl (api_cache s) (enable_cache s) (provider_calls s).
Definition with_api_cache (s : State) (c : TTLCache.t) : State :=
  mkState (rate_limiter s) c (enable_cache s) (provider_calls s).
Definition with_call (s : State) (cmd : string) (out : outcome) : State :=
  mkState (rate_limiter s) (api_cache s) (enable_cache s)
          (provider_calls s ++ [(cmd, out)]).

(** What one invocation reads from the outside world, in the order the
    code reads it. *)
Record world : Type := World {
  timer_get : Q;                      (* cache timer at [api_cache[key]] *)
  acquire_clock : RateLimiter.clock;  (* readings of [rate_limiter.acquire()] *)
  time_remaining : Q;                 (* [time.time()] of [get_remaining_requests] *)
  eval_ : string -> outcome;          (* the provider, by command text *)
  timer_set : Q                       (* cache timer at [api_cache[key] = res] *)
}.

Definition cmd_of (item_id : string) (eval_str : option string) : string :=
  match eval_str with
  | None => "ak." +:+ item_id +:+ "()"
  | Some e => "ak." +:+ item_id +:+ "(" +:+ e +:+ ")"
  end.

Definition _fetch (w : world) (item_id : string) (eval_str : option string)
    (s : State) : State * result (option string) :=
  match RateLimiter.acquire (rate_limiter s) (acquire_clock w) with
  | (rl, Raise e) => (with_rate_limiter s rl, Raise e)
  | (rl, Ok _) =>
      let '(rl', _) := RateLimiter.get_remaining_requests rl (time_remaining w) in
      let cmd := cmd_of item_id eval_str in
      let received_df := eval_ w cmd in
      let s' := with_call (with_rate_limiter s rl') cmd received_df in
      match received_df with
      | Raises e => (s', Raise e)
      | NoFrame => (s', Ok None)
      | Frame json => (s', Ok (Some json))
      end
  end.

Definition invoke_ak_api (w : world) (item_id : string)
    (eval_str : option string) (s : State)
    : State * result (option string * cache_status) :=
  if negb (enable_cache s) then
    match _fetch w item_id eval_str s with
    | (s', Ok res) => (s', Ok (res, DISABLED))
    | (s', Raise e) => (s', Raise e)
    end
  else
    let key := TTLCache.hashkey item_id eval_str in
    match TTLCache.__getitem__ (api_cache s) key (timer_get w) with
    | (c, Ok v) => (with_api_cache s c, Ok (v, HIT))
    | (c, Raise (KeyError _)) =>
        match _fetch w item_id eval_str (with_api_cache s c) with
        | (s', Raise e) => (s', Raise e)
        | (s', Ok res) =>
            match TTLCache.__setitem__ (api_cache s') key res (timer_set w) with
            | (c', Ok _) => (with_api_cache s' c', Ok (res, MISS))
            | (c', Raise e) => (with_api_cache s' c', Raise e)
            end
        end
    | (c, Raise e) => (with_api_cache s c, Raise e)
    end.

(** What [_fetch] makes of the provider's outcome. *)
Definition result_of (received_df : outcome) : result (option string) :=
  match received_df with
  | Raises e => Raise e
  | NoFrame => Ok None
  | Frame json => Ok (Some json)
  end.

(** The provider calls made between two states. *)
Definition calls_since (s s' : State) : list (string * outcome) :=
  drop (length (provider_calls s)) (provider_calls s').

(** The time at which the entry that a call in world [w] serves or
    stores stops being served: the expiry of the entry it hits, or
    its own store time plus the time to live. *)
Definition served_until (w : world) (k : TTLCache.key) (s : State) : Q :=
  match TTLCache.find k (TTLCache.links (api_cache s)) with
  | Some l =>
      if TTLCache.live (timer_get w) l then TTLCache.link_expires l
      else (timer_set w + inject_Z (TTLCache.ttl (api_cache s)))%Q
  | None => (timer_set w + inject_Z (TTLCache.ttl (api_cache s)))%Q
  end.

End Gateway.

(** ** The endpoints [private_root] and [public_root] *)

Module Endpoints.
Import Gateway.

(** The two things the endpoints read from [request.query_params]:
    [urllib.parse.unquote(str(request.query_params))] and
    [bool(request.query_params)]. *)
Record Request : Type := mkRequest {
  decode_params : string;
  has_query_params : bool
}.

(** [content] is either [{"error": msg}] or [json.loads(temp_df)],
    kept as the JSON text it was parsed from. *)
Inductive content : Type :=
| ErrorContent (error : string)
| JsonContent (temp_df : string).

Record JSONResponse : Type := mkResponse {
  status_code : Z;
  body : content;
  headers : list (string * string)
}.

Definition HTTP_200_OK : Z := 200.
Definition HTTP_404_NOT_FOUND : Z := 404.

Definition MSG_UNKNOWN : string :=
  "未找到该接口，请升级 AKShare 到最新版本并在文档中确认该接口的使用方式：https://akshare.akfamily.xyz".
Definition MSG_EMPTY : string :=
  "该接口返回数据为空，请确认参数是否正确：https://akshare.akfamily.xyz".
Definition MSG_PARAMS (e : string) : string :=
  "请输入正确的参数错误 " +:+ e +:+
  "，请升级 AKShare 到最新版本并在文档中确认该接口的使用方式：https://akshare.akfamily.xyz".

Definition not_found_response : JSONResponse :=
  mkResponse HTTP_404_NOT_FOUND (ErrorContent MSG_UNKNOWN) [].

(** The [try] / [except KeyError] block around [invoke_ak_api] and the
    responses built from its result; the same in all four branches.
    An exception other than [KeyError] leaves the endpoint. *)
Definition respond (r : State * result (option string * cache_status))
    : State * result JSONResponse :=
  match r with
  | (s, Ok (None, cache_status)) =>
      (s, Ok (mkResponse HTTP_404_NOT_FOUND (ErrorContent MSG_EMPTY)
                [("X-Cache-Status", cache_status_str cache_status)]))
  | (s, Ok (Some temp_df, cache_status)) =>
      (s, Ok (mkResponse HTTP_200_OK (JsonContent temp_df)
                [("X-Cache-Status", cache_status_str cache_status)]))
  | (s, Raise (KeyError e)) =>
      (s, Ok (mkResponse HTTP_404_NOT_FOUND (ErrorContent (MSG_PARAMS e)) []))
  | (s, Raise e) => (s, Raise e)
  end.

(** The expression of both endpoints: every ampersand becomes a
    double quote, a comma and a space; then every equals sign becomes
    an equals sign and a double quote; then a double quote is
    appended. *)
Definition quote_params (decode_params : string) : string :=
  Str.replace Str.equals ("=" +:+ Str.chr Str.dquote)
    (Str.replace Str.amp (Str.chr Str.dquote +:+ ", ") decode_params)
  +:+ Str.chr Str.dquote.

Definition private_eval_str (decode_params : string) : string :=
  quote_params decode_params.

(** The [if "cookie" in decode_params] of [public_root];
    [split(...)[1]] raises [IndexError] when there is no ["="]. *)
Definition public_eval_str (decode_params : string) : result string :=
  if Str.contains "cookie" decode_params then
    match Str.split1 Str.equals decode_params with
    | (name, Some value) =>
        Ok (Str.replace Str.plus " "
              (name +:+ "=" +:+ Str.chr Str.squote +:+ value +:+ Str.chr Str.squote))
    | (_, None) => Raise (IndexError "list index out of range")
    end
  else
    Ok (Str.replace Str.plus " " (quote_params decode_params)).

Definition private_root (w : world) (interface_list : list string)
    (request : Request) (item_id : string) (s : State)
    : State * result JSONResponse :=
  if bool_decide (item_id ∉ interface_list) then (s, Ok not_found_response)
  else
    let eval_str := private_eval_str (decode_params request) in
    if negb (has_query_params request)
    then respond (invoke_ak_api w item_id None s)
    else respond (invoke_ak_api w item_id (Some eval_str) s).

Definition public_root (w : world) (interface_list : list string)
    (request : Request) (item_id : string) (s : State)
    : State * result JSONResponse :=
  if bool_decide (item_id ∉ interface_list) then (s, Ok not_found_response)
  else
    match public_eval_str (decode_params request) with
    | Raise e => (s, Raise e)
    | Ok eval_str =>
        if negb (has_query_params request)
        then respond (invoke_ak_api w item_id None s)
        else respond (invoke_ak_api w item_id (Some eval_str) s)
    end.

Inductive endpoint : Type := private | public.

Definition root (ep : endpoint) :=
  match ep with private => private_root | public => public_root end.

(** The second argument an endpoint passes to [invoke_ak_api]. *)
Definition eval_str_of (ep : endpoint) (request : Request)
    : result (option string) :=
  match ep with
  | private =>
      Ok (if has_query_params request
          then Some (private_eval_str (decode_params request)) else None)
  | public =>
      match public_eval_str (decode_params request) with
      | Ok e => Ok (if has_query_params request then Some e else None)
      | Raise e => Raise e
      end
  end.

(** Modelled from the spec: what the web framework (not among the
    sources) makes of an endpoint's result.  Section 6: "on
    UnknownOperation/EmptyResult/InvalidParameters, surface returns a
    not-found-class status ...; on ProviderFailure, surface should
    treat it as a server-class error".  A response keeps its status;
    an exception that leaves the endpoint becomes status 500. *)
Definition surface_status (r : result JSONResponse) : Z :=
  match r with
  | Ok resp => status_code resp
  | Raise _ => 500
  end.

End Endpoints.

(** ** Concrete configurations used in the examples *)

Module Samples.
Import Gateway Endpoints.

(** The defaults of the environment: 10 requests per 60 seconds, 128
    entries kept for 3600 seconds. *)
Definition state0 (enable_cache : bool) : State :=
  mkState (RateLimiter.__init__ 10 60) (TTLCache.__init__ 128 3600)
          enable_cache [].

(** A world in which every clock reads [t] and the provider is [p]. *)
Definition world_at (t : Q) (p : string -> outcome) : world :=
  World t (RateLimiter.Clock t (1 # 5) t) t p t.

Definition returns_frame : string -> outcome := fun _ => Frame "[]".
Definition raises_other : string -> outcome :=
  fun _ => Raises (OtherError "unexpected keyword argument").

Definition no_params : Request := mkRequest "" false.
Definition with_params (q : string) : Request := mkRequest q true.

End Samples.

(** ** The deque as a record of grants *)

Module Window.

(** The timestamps never go down from the oldest to the newest. *)
Fixpoint nondecreasing (ts : list Q) : Prop :=
  match ts with
  | [] => True
  | t0 :: rest => Forall (Qle t0) rest /\ nondecreasing rest
  end.

(** The timestamps that a purge with this cut-off is meant to keep. *)
Definition recent (cutoff_time : Q) (ts : list Q) : list Q :=
  filter (fun t0 => Qle_bool cutoff_time t0 = true) ts.

(** The timestamp [acquire] appends: the clock read after the sleep
    when it slept, the clock read on entry otherwise. *)
Definition granted_at (clk : RateLimiter.clock) (slept : option Q) : Q :=
  match slept with
  | Some _ => RateLimiter.now_after_sleep clk
  | None => RateLimiter.now clk
  end.

End Window.

(** ** The proxy table built when the module loads *)

Module Proxies.

(** [os.getenv(name)] on the process environment. *)
Definition getenv (environ : gmap string string) (name : string)
    : option string :=
  environ !! name.

(** Truth value of [None] or a string: only a non-empty string is true. *)
Definition truthy (v : option string) : bool :=
  match v with
  | Some s => bool_decide (s ≠ "")
  | None => false
  end.

(** [a or b] *)
Definition or_ (a b : option string) : option string :=
  if truthy a then a else b.

Definition _http_proxy (environ : gmap string string) : option string :=
  or_ (or_ (getenv environ "AKTOOLS_HTTP_PROXY") (getenv environ "HTTP_PROXY"))
      (getenv environ "http_proxy").

Definition _https_proxy (environ : gmap string string) : option string :=
  or_ (or_ (getenv environ "AKTOOLS_HTTPS_PROXY") (getenv environ "HTTPS_PROXY"))
      (getenv environ "https_proxy").

(** [if cond: d[k] = v]; the value is a string whenever [cond] holds
    in the three uses below. *)
Definition setitem_if (cond : bool) (k : string) (v : option string)
    (d : gmap string string) : gmap string string :=
  if cond then match v with Some s => <[k := s]> d | None => d end else d.

Definition PROXIES (environ : gmap string string) : gmap string string :=
  let http := _http_proxy environ in
  let https := _https_proxy environ in
  let d1 := setitem_if (truthy http) "http" http ∅ in
  let d2 := setitem_if (truthy https) "https" https d1 in
  setitem_if (truthy http && negb (truthy https)) "https" http d2.

End Proxies.

(** ** The order of use of the cache entries *)

Module Recency.
Import TTLCache.

(** The key an operation uses, if any: a lookup uses its key when it
    finds an entry for it, a store uses its key unless the cache refuses
    the value. *)
Definition used (c : t) (o : op) : option key :=
  match o with
  | Get k _ =>
      match find k (links c) with Some _ => Some k | None => None end
  | Set_ k _ _ => if bool_decide (1 > maxsize c) then None else Some k
  end.

(** The position in a history, counted from [i], of the last operation
    that used [k]; the history runs from the cache [c]. *)
Fixpoint last_use_from (c : t) (i : nat) (ops : list op) (k : key)
    : option nat :=
  match ops with
  | [] => None
  | o :: rest =>
      match last_use_from (step c o) (S i) rest k with
      | Some n => Some n
      | None => if decide (used c o = Some k) then Some i else None
      end
  end.

Definition last_use (c : t) (ops : list op) (k : key) : option nat :=
  last_use_from c 0 ops k.

(** Under the last uses [f], the entry [l1] was last used before the
    entry [l2]. *)
Definition used_before (f : key -> option nat) (l1 l2 : link) : Prop :=
  exists n1 n2,
    f (link_key l1) = Some n1 /\ f (link_key l2) = Some n2 /\ (n1 < n2)%nat.

(** Every entry is in relation [R] with all the entries after it. *)
Fixpoint ordered (R : link -> link -> Prop) (ls : list link) : Prop :=
  match ls with
  | [] => True
  | l :: rest => Forall (R l) rest /\ ordered R rest
  end.

(** The invariant: the entries are ordered by last use, and every last
    use lies before position [i]. *)
Definition in_use_order (f : key -> option nat) (i : nat) (ls : list link) : Prop :=
  ordered (used_before f) ls /\
  Forall (fun l => exists n, f (link_key l) = Some n /\ (n < i)%nat) ls.

End Recency.

(** * Properties *)

Module PyFacts.

Lemma Qltb_lt x y : Qltb x y = true <-> (x < y)%Q.
Proof.
  unfold Qltb. rewrite negb_true_iff.
  destruct (Qle_bool y x) eqn:E.
  - apply Qle_bool_iff in E. split; [discriminate | intros H; lra].
  - split; [intros _ | reflexivity].
    destruct (Qlt_le_dec x y) as [H | H]; [exact H |].
    apply Qle_bool_iff in H. congruence.
Qed.

Lemma Qltb_ge x y : Qltb x y = false <-> (y <= x)%Q.
Proof.
  destruct (Qltb x y) eqn:E.
  - apply Qltb_lt in E. split; [discriminate | intros H; lra].
  - split; [intros _ | reflexivity].
    destruct (Qlt_le_dec x y) as [H | H]; [| exact H].
    apply Qltb_lt in H. congruence.
Qed.

End PyFacts.

(** ** The rate limiter *)

Module RateLimiterFacts.
Import RateLimiter PyFacts.

Example acquire_under_capacity :
  acquire (__init__ 2 60) (Clock 5 (1#5) 5) = (mk 2 60 [5%Q], Ok None).
Proof. reflexivity. Qed.

Example acquire_full_window :
  acquire (mk 2 60 [5%Q; 6%Q]) (Clock 7 (1#5) (66#1))
  = (mk 2 60 [6%Q; 66%Q], Ok (Some (5 + 60 - 7 + (1#5))%Q)).
Proof. reflexivity. Qed.

(** With a positive [max_requests] the index [request_timestamps[0]]
    is never taken on an empty deque: [acquire] returns. *)
Lemma acquire_returns self clk :
  0 < max_requests self ->
  exists self' slept, acquire self clk = (self', Ok slept).
Proof.
  intros Hmax. unfold acquire.
  set (self1 := _clean_old_requests self (now clk)).
  case_bool_decide as Hfull; [| eauto].
  destruct (request_timestamps self1) as [| oldest rest] eqn:Hts.
  - simpl in Hfull. change (max_requests self1) with (max_requests self) in Hfull. lia.
  - destruct (Qltb 0 _); eauto.
Qed.

(** A full window whose oldest grant is still strictly inside it:
    [acquire] sleeps until that grant leaves the window, plus the
    jitter, and stamps the grant with the clock read after the sleep. *)
Lemma acquire_blocks_when_full self clk oldest rest :
  request_timestamps (_clean_old_requests self (now clk)) = oldest :: rest ->
  max_requests self <= Z.of_nat (length (oldest :: rest)) ->
  (now clk < oldest + inject_Z (window_seconds self))%Q ->
  acquire self clk =
    (append (_clean_old_requests (_clean_old_requests self (now clk))
                                 (now_after_sleep clk))
            (now_after_sleep clk),
     Ok (Some (oldest + inject_Z (window_seconds self) - now clk + jitter clk)%Q)).
Proof.
  intros Hts Hfull Hin. unfold acquire. rewrite Hts.
  rewrite bool_decide_eq_true_2 by exact Hfull.
  cbn [window_seconds _clean_old_requests].
  assert (Qltb 0 (oldest + inject_Z (window_seconds self) - now clk) = true) as ->.
  { apply Qltb_lt. lra. }
  reflexivity.
Qed.

(** After such a sleep the grant waited for has left the deque. *)
Lemma popleft_while_drops_old cutoff oldest rest :
  (oldest < cutoff)%Q ->
  (length (popleft_while cutoff (oldest :: rest)) <= length rest)%nat.
Proof.
  intros Hold. simpl. apply Qltb_lt in Hold. rewrite Hold.
  clear Hold. induction rest as [| x rest IH]; simpl; [lia |].
  destruct (Qltb x cutoff); simpl; lia.
Qed.

(** Away from the edge the deque never outgrows the cap: if it holds at
    most [max_requests] timestamps, the clock behaves, and the oldest
    grant kept by the purge is not exactly [window_seconds] old, then it
    holds at most [max_requests] after [acquire]. *)
Lemma popleft_while_head cutoff ts oldest rest :
  popleft_while cutoff ts = oldest :: rest -> (cutoff <= oldest)%Q.
Proof.
  induction ts as [| t0 ts IH]; simpl; [discriminate |].
  destruct (Qltb t0 cutoff) eqn:E; [exact IH |].
  intros [= -> _]. by apply Qltb_ge.
Qed.

Lemma length_popleft_while cutoff ts :
  (length (popleft_while cutoff ts) <= length ts)%nat.
Proof.
  induction ts as [| t0 ts IH]; simpl; [lia |].
  destruct (Qltb t0 cutoff); simpl; lia.
Qed.

Lemma acquire_keeps_cap_off_edge self clk self' slept :
  Z.of_nat (length (request_timestamps self)) <= max_requests self ->
  (forall oldest rest,
     request_timestamps (_clean_old_requests self (now clk)) = oldest :: rest ->
     clock_ok clk (oldest + inject_Z (window_seconds self) - now clk + jitter clk)%Q /\
     ~ (oldest == now clk - inject_Z (window_seconds self))%Q) ->
  acquire self clk = (self', Ok slept) ->
  Z.of_nat (length (request_timestamps self')) <= max_requests self' /\
  max_requests self' = max_requests self.
Proof.
  intros Hcap Hedge H. unfold acquire in H.
  set (W := inject_Z (window_seconds self)) in *.
  set (cleaned := popleft_while (now clk - W)%Q (request_timestamps self)) in *.
  assert (length cleaned <= length (request_timestamps self))%nat as Hlen
    by apply length_popleft_while.
  change (request_timestamps (_clean_old_requests self (now clk))) with cleaned in *.
  change (max_requests (_clean_old_requests self (now clk))) with (max_requests self) in *.
  change (window_seconds (_clean_old_requests self (now clk))) with (window_seconds self) in *.
  fold W in H.
  case_bool_decide as Hfull.
  - destruct cleaned as [| oldest rest] eqn:Hts; [discriminate |].
    destruct (Hedge _ _ eq_refl) as [[[Hj _] Hafter] Hne].
    pose proof (popleft_while_head _ _ _ _ Hts) as Hhead.
    assert (Qltb 0 (oldest + W - now clk) = true) as Hw.
    { apply Qltb_lt.
      destruct (Qlt_le_dec (now clk) (oldest + W)) as [Hlt | Hge]; [lra |].
      exfalso. apply Hne. lra. }
    rewrite Hw in H. injection H as <- _.
    split; [| reflexivity].
    unfold append, _clean_old_requests. cbn [request_timestamps max_requests window_seconds].
    fold W. fold cleaned. rewrite Hts, length_app.
    change (length [now_after_sleep clk]) with 1%nat.
    pose proof (popleft_while_drops_old (now_after_sleep clk - W)%Q oldest rest) as Hdrop.
    simpl length in Hfull, Hlen.
    cut (length (popleft_while (now_after_sleep clk - W)%Q (oldest :: rest))
         <= length rest)%nat; [lia |].
    apply Hdrop. lra.
  - injection H as <- _. split; [| reflexivity].
    unfold append. cbn [request_timestamps max_requests].
    change (request_timestamps (_clean_old_requests self (now clk))) with cleaned.
    change (max_requests (_clean_old_requests self (now clk))) with (max_requests self).
    rewrite length_app. change (length [now clk]) with 1%nat. lia.
Qed.

(** The edge: the oldest grant sits exactly on the cut-off
    [now - window_seconds].  It is not purged (the purge is strict),
    the wait computed is zero (the test is strict too), and the grant
    is appended at once, however full the deque is. *)
Lemma acquire_on_window_edge self clk oldest rest :
  request_timestamps self = oldest :: rest ->
  (oldest == now clk - inject_Z (window_seconds self))%Q ->
  acquire self clk = (append self (now clk), Ok None).
Proof.
  intros Hts Hedge. unfold acquire.
  assert (_clean_old_requests self (now clk) = self) as ->.
  { unfold _clean_old_requests. rewrite Hts. simpl.
    assert (Qltb oldest (now clk - inject_Z (window_seconds self)) = false) as ->.
    { apply Qltb_ge. lra. }
    destruct self; simpl in *; congruence. }
  rewrite Hts.
  assert (Qltb 0 (oldest + inject_Z (window_seconds self) - now clk) = false) as ->.
  { apply Qltb_ge. lra. }
  case_bool_decide; reflexivity.
Qed.

(** C1. The cap does not hold on the code: with [max_requests = 1]
    and [window_seconds = 60], calls whose clock reads 0, 60 and 60 are
    all granted without any sleep.  After the second call the deque
    already holds two grants that are 60 seconds apart; after the third,
    two of the recorded grants lie in the trailing window that ends at
    60 (that is, strictly after 0 and up to 60). *)
Theorem acquire_overshoots_on_window_edge :
  let clks := [Clock 0 (1#5) 0; Clock 60 (1#5) 60; Clock 60 (1#5) 60] in
  acquire_all (__init__ 1 60) (take 2 clks)
    = (mk 1 60 [0%Q; 60%Q], [None; None]) /\
  acquire_all (__init__ 1 60) clks
    = (mk 1 60 [0%Q; 60%Q; 60%Q], [None; None; None]) /\
  grants_in_window (mk 1 60 [0%Q; 60%Q; 60%Q]) 60 = 2%nat /\
  Z.of_nat (grants_in_window (fst (acquire_all (__init__ 1 60) clks)) 60)
    > max_requests (fst (acquire_all (__init__ 1 60) clks)).
Proof. vm_compute. repeat split. Qed.

End RateLimiterFacts.

(** ** The request shaper *)

Module ShaperFacts.
Import Shaper.

Lemma update_lookup (d other : gmap string string) k :
  update d other !! k = match other !! k with Some v => Some v | None => d !! k end.
Proof.
  unfold update. rewrite lookup_union.
  destruct (other !! k), (d !! k); reflexivity.
Qed.

Example browser_headers_user_agent ua :
  get_browser_headers ua !! "User-Agent" = Some ua.
Proof. unfold get_browser_headers. apply lookup_insert_eq. Qed.

Example browser_headers_connection ua :
  get_browser_headers ua !! "Connection" = Some "keep-alive".
Proof. unfold get_browser_headers. rewrite lookup_insert_ne by done. reflexivity. Qed.

Example browser_headers_size ua : size (get_browser_headers ua) = 14%nat.
Proof. reflexivity. Qed.

(** C9. The headers handed on by [_patched_request]: every field of
    the browser header set is present, with the caller's value where
    the caller supplied that field and the browser value otherwise;
    any other field is the caller's; and with no caller headers the
    result is exactly the browser header set. *)
Theorem patched_request_headers (ua : string) (PROXIES : gmap string string)
    (random_delay : bool) (delay : Q) (kw : kwargs) :
  exists hs : gmap string string,
    headers (fst (_patched_request ua PROXIES random_delay delay kw)) = Some hs /\
    (forall k v, get_browser_headers ua !! k = Some v ->
       hs !! k = Some (default v (headers kw ≫= (.!! k)))) /\
    (forall k, get_browser_headers ua !! k = None ->
       hs !! k = headers kw ≫= (.!! k)) /\
    (headers kw = None -> hs = get_browser_headers ua).
Proof.
  destruct kw as [[caller |] px]; simpl.
  - exists (update (get_browser_headers ua) caller). split; [reflexivity |].
    split; [| split; [| discriminate]].
    + intros k v Hk. rewrite update_lookup, Hk. destruct (caller !! k); reflexivity.
    + intros k Hk. rewrite update_lookup, Hk. destruct (caller !! k); reflexivity.
  - exists (get_browser_headers ua). split; [reflexivity |].
    split; [| split; [| reflexivity]].
    + intros k v Hk. exact Hk.
    + intros k Hk. exact Hk.
Qed.

End ShaperFacts.

(** ** The result cache *)

Module TTLCacheFacts.
Import TTLCache PyFacts.

Lemma find_app k ls1 ls2 :
  find k (ls1 ++ ls2) =
  match find k ls1 with Some l => Some l | None => find k ls2 end.
Proof.
  induction ls1 as [| l ls1 IH]; simpl; [reflexivity |].
  destruct (decide (link_key l = k)); [reflexivity | exact IH].
Qed.

Lemma find_Some k ls l : find k ls = Some l -> link_key l = k /\ l ∈ ls.
Proof.
  induction ls as [| l0 ls IH]; simpl; [discriminate |].
  destruct (decide (link_key l0 = k)) as [Hk | Hk].
  - intros [= <-]. split; [exact Hk | apply list_elem_of_here].
  - intros H. destruct (IH H) as [? ?]. split; [assumption |].
    by apply list_elem_of_further.
Qed.

Lemma find_None k ls : find k ls = None <-> forall l, l ∈ ls -> link_key l ≠ k.
Proof.
  induction ls as [| l0 ls IH]; simpl.
  - split; [intros _ l Hl; inversion Hl | reflexivity].
  - destruct (decide (link_key l0 = k)) as [Hk | Hk].
    + split; [discriminate |]. intros H. exfalso. apply (H l0); [left | exact Hk].
    + rewrite IH. split.
      * intros H l Hl. apply elem_of_cons in Hl as [-> | Hl]; auto.
      * intros H l Hl. apply H. by right.
Qed.

Lemma find_remove_eq k ls : find k (remove k ls) = None.
Proof.
  apply find_None. intros l Hl. unfold remove in Hl.
  apply list_elem_of_filter in Hl as [Hl _]. exact Hl.
Qed.

Lemma find_remove_ne k k' ls : k' ≠ k -> find k' (remove k ls) = find k' ls.
Proof.
  intros Hne. unfold remove. induction ls as [| l ls IH]; [reflexivity |].
  rewrite filter_cons. destruct (decide (link_key l ≠ k)) as [Hl | Hl]; simpl.
  - destruct (decide (link_key l = k')); [reflexivity | exact IH].
  - destruct (decide (link_key l = k')) as [Hk' | _]; [| exact IH].
    exfalso. apply Hl. congruence.
Qed.

Lemma remove_absent k ls : find k ls = None -> remove k ls = ls.
Proof.
  intros H. unfold remove. induction ls as [| l ls IH]; [reflexivity |].
  simpl in H. destruct (decide (link_key l = k)) as [Hk | Hk]; [discriminate |].
  rewrite filter_cons_True by exact Hk. f_equal. exact (IH H).
Qed.

Lemma length_remove_present k ls l :
  find k ls = Some l -> (length (remove k ls) + 1 <= length ls)%nat.
Proof.
  intros H. apply find_Some in H as [Hk Hin]. unfold remove.
  pose proof (length_filter_lt (λ l, link_key l ≠ k) ls l Hin) as Hlt.
  cut (length (filter (λ l, link_key l ≠ k) ls) < length ls)%nat; [lia |].
  apply Hlt. intros Hne. exact (Hne Hk).
Qed.

(** Moving the entry found for [k] to the most recently used end
    changes no key's entry. *)
Lemma find_touch k k' ls l :
  find k ls = Some l -> find k' (remove k ls ++ [l]) = find k' ls.
Proof.
  intros H. pose proof (find_Some _ _ _ H) as [Hk _]. rewrite find_app.
  destruct (decide (k' = k)) as [-> | Hne].
  - rewrite find_remove_eq. simpl. rewrite decide_True by exact Hk. by rewrite H.
  - rewrite find_remove_ne by exact Hne.
    destruct (find k' ls) eqn:E; [reflexivity |]. simpl.
    rewrite decide_False; [reflexivity | congruence].
Qed.

Lemma find_stored k ls l : link_key l = k -> find k (remove k ls ++ [l]) = Some l.
Proof.
  intros Hk. rewrite find_app, find_remove_eq. simpl. by rewrite decide_True.
Qed.

(** *** Lookups *)

Lemma getitem_same_entries c k time :
  same_entries c (fst (__getitem__ c k time)).
Proof.
  unfold __getitem__, same_entries.
  destruct (find k (links c)) as [l |] eqn:E; [| simpl; auto].
  assert (forall k', find k' (remove k (links c) ++ [l]) = find k' (links c))
    by (intros; by apply find_touch).
  destruct (live time l); simpl; auto.
Qed.

Lemma getitem_peek c k time :
  snd (__getitem__ c k time) =
  match peek c k time with Some v => Ok v | None => Raise (KeyError (fst k)) end.
Proof.
  unfold __getitem__, peek. destruct (find k (links c)) as [l |]; [| reflexivity].
  destruct (live time l); reflexivity.
Qed.

Lemma peek_same_entries c c' k time :
  same_entries c c' -> peek c' k time = peek c k time.
Proof. intros (_ & _ & H). unfold peek. by rewrite H. Qed.

(** *** Stores *)


Lemma setitem_Ok_inv c k v time c' :
  __setitem__ c k v time = (c', Ok tt) ->
  1 <= maxsize c /\ maxsize c' = maxsize c /\ ttl c' = ttl c /\
  find k (links c') = Some (Link k v (time + inject_Z (ttl c))%Q).
Proof.
  unfold __setitem__. case_bool_decide as Hmax; [discriminate |].
  intros [= <-]. simpl. repeat split; [lia |]. by apply find_stored.
Qed.

(** *** Capacity *)

Lemma length_expire time ls : (length (expire time ls) <= length ls)%nat.
Proof. apply length_filter. Qed.

Lemma length_remove k ls : (length (remove k ls) <= length ls)%nat.
Proof. apply length_filter. Qed.

Lemma length_evict m ls : 1 <= m -> Z.of_nat (length (evict m ls)) + 1 <= m.
Proof.
  intros Hm. induction ls as [| l ls IH]; simpl; [lia |].
  case_bool_decide as Hfull; [exact IH | simpl; lia].
Qed.

Lemma length_evict_le m ls : (length (evict m ls) <= length ls)%nat.
Proof.
  induction ls as [| l ls IH]; simpl; [lia |].
  case_bool_decide; simpl; lia.
Qed.

Lemma step_maxsize c o : maxsize (step c o) = maxsize c /\ ttl (step c o) = ttl c.
Proof.
  destruct o as [k time | k v time]; simpl.
  - unfold __getitem__. destruct (find k (links c)) as [l |]; [| done].
    by destruct (live time l).
  - unfold __setitem__. by case_bool_decide.
Qed.

Lemma run_maxsize c ops : maxsize (run c ops) = maxsize c /\ ttl (run c ops) = ttl c.
Proof.
  revert c. induction ops as [| o ops IH]; intros c; [done |].
  simpl. destruct (IH (step c o)) as [-> ->]. apply step_maxsize.
Qed.

Lemma step_bounded c o :
  Z.of_nat (length (links c)) <= maxsize c ->
  Z.of_nat (length (links (step c o))) <= maxsize c.
Proof.
  intros Hb. destruct o as [k time | k v time]; simpl.
  - unfold __getitem__. destruct (find k (links c)) as [l |] eqn:E; [| done].
    pose proof (length_remove_present _ _ _ E).
    destruct (live time l); simpl; rewrite length_app; simpl; lia.
  - unfold __setitem__.
    pose proof (length_expire time (links c)) as He.
    case_bool_decide as Hmax; simpl; [lia |].
    rewrite length_app. simpl.
    destruct (find k (expire time (links c))) as [l |] eqn:E.
    + pose proof (length_remove_present _ _ _ E). lia.
    + pose proof (length_evict (maxsize c) (expire time (links c))).
      pose proof (length_remove k (evict (maxsize c) (expire time (links c)))).
      lia.
Qed.

Lemma run_bounded c ops :
  Z.of_nat (length (links c)) <= maxsize c ->
  Z.of_nat (length (links (run c ops))) <= maxsize c.
Proof.
  revert c. induction ops as [| o ops IH]; intros c Hb; [exact Hb |].
  simpl. rewrite <- (proj1 (step_maxsize c o)). apply IH.
  rewrite (proj1 (step_maxsize c o)). by apply step_bounded.
Qed.

(** *** Eviction takes the least recently used entry *)

Lemma expire_all_live time ls :
  (forall l, l ∈ ls -> live time l = true) -> expire time ls = ls.
Proof.
  intros H. unfold expire. induction ls as [| l ls IH]; [reflexivity |].
  rewrite filter_cons_True by (apply H; left).
  f_equal. apply IH. intros l' Hl'. apply H. by right.
Qed.

Lemma setitem_evicts_lru c k v time l0 rest :
  links c = l0 :: rest ->
  Z.of_nat (length (links c)) = maxsize c ->
  (forall l, l ∈ links c -> live time l = true) ->
  find k (links c) = None ->
  __setitem__ c k v time =
    (with_links c (rest ++ [Link k v (time + inject_Z (ttl c))%Q]), Ok tt).
Proof.
  intros Hls Hfull Hlive Hfind. unfold __setitem__.
  rewrite (expire_all_live _ _ Hlive), Hfind.
  rewrite Hls in Hfull, Hfind |- *. simpl in Hfull.
  rewrite bool_decide_eq_false_2 by lia.
  assert (evict (maxsize c) (l0 :: rest) = rest) as ->.
  { simpl. rewrite bool_decide_eq_true_2 by lia.
    destruct rest as [| l1 rest]; [reflexivity |].
    simpl in *. rewrite bool_decide_eq_false_2 by lia. reflexivity. }
  simpl in Hfind. destruct (decide (link_key l0 = k)); [discriminate |].
  by rewrite (remove_absent _ _ Hfind).
Qed.

(** *** Expiry *)

Lemma expires_by_subset k deadline ls ls' :
  ls' ⊆ ls -> expires_by k deadline ls -> expires_by k deadline ls'.
Proof. intros Hsub H l Hl. apply H. by apply Hsub. Qed.

Lemma evict_subset m ls : evict m ls ⊆ ls.
Proof.
  induction ls as [| l ls IH]; simpl; [done |].
  case_bool_decide; [| done]. intros x Hx. right. by apply IH.
Qed.

Lemma step_expires_by k deadline c o :
  stores k o = false ->
  expires_by k deadline (links c) -> expires_by k deadline (links (step c o)).
Proof.
  intros Hst H. destruct o as [k' time | k' v time]; simpl in *.
  - unfold __getitem__. destruct (find k' (links c)) as [l |] eqn:E; [| exact H].
    apply find_Some in E as [_ Hl].
    assert (expires_by k deadline (remove k' (links c) ++ [l])).
    { intros l' Hl'. apply elem_of_app in Hl' as [Hl' | Hl'].
      - apply H. apply list_elem_of_filter in Hl'. tauto.
      - apply list_elem_of_singleton in Hl' as ->. by apply H. }
    by destruct (live time l).
  - apply bool_decide_eq_false in Hst. unfold __setitem__.
    assert (expires_by k deadline (expire time (links c))) as He.
    { eapply expires_by_subset; [| exact H]. apply list_subseteq_filter. }
    case_bool_decide; simpl; [exact He |].
    intros l Hl. apply elem_of_app in Hl as [Hl | Hl].
    + apply list_elem_of_filter in Hl as [_ Hl].
      destruct (find k' (expire time (links c))); [by apply He |].
      apply He. by apply (evict_subset (maxsize c)).
    + apply list_elem_of_singleton in Hl as ->. simpl. congruence.
Qed.

Lemma run_expires_by k deadline c ops :
  forallb (λ o, negb (stores k o)) ops = true ->
  expires_by k deadline (links c) -> expires_by k deadline (links (run c ops)).
Proof.
  revert c. induction ops as [| o ops IH]; intros c Hops H; [exact H |].
  simpl in Hops. apply andb_true_iff in Hops as [Ho Hops].
  apply negb_true_iff in Ho. simpl. apply IH; [exact Hops |].
  by apply step_expires_by.
Qed.

Lemma setitem_expires_by c k v time c' :
  __setitem__ c k v time = (c', Ok tt) ->
  expires_by k (time + inject_Z (ttl c))%Q (links c').
Proof.
  unfold __setitem__. case_bool_decide; [discriminate |].
  intros [= <-]. simpl. intros l Hl Hk.
  apply elem_of_app in Hl as [Hl | Hl].
  - apply list_elem_of_filter in Hl as [Hne _]. by destruct Hne.
  - apply list_elem_of_singleton in Hl as ->. simpl. lra.
Qed.

Lemma peek_expired k deadline c now :
  expires_by k deadline (links c) -> (deadline <= now)%Q -> peek c k now = None.
Proof.
  intros H Hnow. unfold peek.
  destruct (find k (links c)) as [l |] eqn:E; [| reflexivity].
  apply find_Some in E as [Hk Hl].
  assert (live now l = false) as ->; [| reflexivity].
  apply Qltb_ge. pose proof (H l Hl Hk). lra.
Qed.

End TTLCacheFacts.

(** ** String methods *)

Module StrFacts.
Import Str.

Lemma app_cons a s t : String a s +:+ t = String a (s +:+ t).
Proof. reflexivity. Qed.

Lemma app_nil_l t : EmptyString +:+ t = t.
Proof. reflexivity. Qed.

Lemma app_assoc s t u : (s +:+ t) +:+ u = s +:+ (t +:+ u).
Proof.
  induction s as [| a s IH]; [reflexivity |].
  rewrite !app_cons. by rewrite IH.
Qed.

Lemma app_chr_inj s1 s2 c : s1 +:+ chr c = s2 +:+ chr c -> s1 = s2.
Proof.
  revert s2. induction s1 as [| a s1 IH]; intros [| b s2] H.
  - reflexivity.
  - rewrite app_cons, app_nil_l in H. injection H as _ H.
    destruct s2; discriminate.
  - rewrite app_cons, app_nil_l in H. injection H as _ H.
    destruct s1; discriminate.
  - rewrite !app_cons in H. injection H as -> H. f_equal. by apply IH.
Qed.

Lemma contains_chr c s : contains (chr c) s = occurs c s.
Proof.
  induction s as [| a s IH]; [reflexivity |].
  simpl. rewrite IH. unfold chr.
  destruct (ascii_dec c a) as [-> | Hne].
  - rewrite Ascii.eqb_refl. by destruct s.
  - assert (Ascii.eqb a c = false) as -> by (apply Ascii.eqb_neq; congruence).
    reflexivity.
Qed.

Lemma occurs_app c s t : occurs c (s +:+ t) = occurs c s || occurs c t.
Proof.
  induction s as [| a s IH]; [reflexivity |].
  rewrite app_cons. simpl. rewrite IH. by rewrite orb_assoc.
Qed.

(** A replacement leaves the other characters where they are... *)
Lemma occurs_replace_other c old new s :
  c <> old -> occurs c s = true -> occurs c (replace old new s) = true.
Proof.
  intros Hne. induction s as [| a s IH]; [discriminate |].
  simpl. destruct (Ascii.eqb a old) eqn:Ea.
  - apply Ascii.eqb_eq in Ea as ->.
    assert (Ascii.eqb old c = false) as -> by (apply Ascii.eqb_neq; congruence).
    simpl. intros H. rewrite occurs_app, (IH H). apply orb_true_r.
  - simpl. destruct (Ascii.eqb a c); [reflexivity |]. exact IH.
Qed.

(** ... and removes every occurrence of the replaced one. *)
Lemma occurs_replace_self old new s :
  occurs old new = false -> occurs old (replace old new s) = false.
Proof.
  intros Hnew. induction s as [| a s IH]; [reflexivity |].
  simpl. destruct (Ascii.eqb a old) eqn:Ea.
  - by rewrite occurs_app, Hnew, IH.
  - simpl. by rewrite Ea, IH.
Qed.

Lemma replace_app old new s t :
  replace old new (s +:+ t) = replace old new s +:+ replace old new t.
Proof.
  induction s as [| a s IH]; [reflexivity |].
  rewrite app_cons. simpl. rewrite IH.
  destruct (Ascii.eqb a old); [by rewrite app_assoc | reflexivity].
Qed.

Lemma last_nonempty a s : exists c, last (String a s) = Some c.
Proof.
  revert a. induction s as [| b s IH]; intros a; [by exists a |].
  destruct (IH b) as [c Hc]. exists c. exact Hc.
Qed.

Lemma last_app s t :
  last (s +:+ t) = match last t with Some c => Some c | None => last s end.
Proof.
  induction s as [| a s IH].
  - rewrite app_nil_l. by destruct (last t).
  - rewrite app_cons. destruct s as [| b s].
    + rewrite app_nil_l. destruct t as [| a0 t]; [reflexivity |].
      destruct (last_nonempty a0 t) as [c Hc].
      change (last (String a (String a0 t))) with (last (String a0 t)).
      by rewrite Hc.
    + rewrite app_cons in *.
      change (last (String a (String b (s +:+ t)))) with (last (String b (s +:+ t))).
      change (last (String a (String b s))) with (last (String b s)).
      exact IH.
Qed.

Lemma split1_found sep s :
  occurs sep s = true -> exists a b, split1 sep s = (a, Some b).
Proof.
  induction s as [| c s IH]; [discriminate |].
  simpl. destruct (Ascii.eqb c sep); simpl.
  - eauto.
  - intros H. destruct (IH H) as (a & b & ->). eauto.
Qed.

End StrFacts.

(** ** The entries are kept in the order of their last use *)

Module RecencyFacts.
Import TTLCache Recency TTLCacheFacts.

Lemma ordered_sublist R ls ls' :
  ls' `sublist_of` ls -> ordered R ls -> ordered R ls'.
Proof.
  induction 1 as [| x l1 l2 Hsub IH | x l1 l2 Hsub IH]; simpl; [done | |].
  - intros [Hx Hrest]. split; [| by apply IH].
    apply Forall_forall. intros y Hy.
    apply (proj1 (Forall_forall _ _) Hx). by eapply elem_of_sublist.
  - intros [_ Hrest]. by apply IH.
Qed.

Lemma Forall_sublist_of {A} (P : A -> Prop) (ls ls' : list A) :
  ls' `sublist_of` ls -> Forall P ls -> Forall P ls'.
Proof.
  intros Hsub H. apply Forall_forall. intros x Hx.
  apply (proj1 (Forall_forall _ _) H). by eapply elem_of_sublist.
Qed.

Lemma ordered_impl (R R' : link -> link -> Prop) ls :
  (forall l1 l2, l1 ∈ ls -> l2 ∈ ls -> R l1 l2 -> R' l1 l2) ->
  ordered R ls -> ordered R' ls.
Proof.
  induction ls as [| l ls IH]; simpl; [done |].
  intros Himp [Hl Hrest]. split.
  - apply Forall_forall. intros y Hy. apply Himp; [left | by right |].
    by apply (proj1 (Forall_forall _ _) Hl).
  - apply IH; [| exact Hrest]. intros l1 l2 H1 H2. apply Himp; by right.
Qed.

Lemma ordered_snoc R ls l :
  ordered R ls -> Forall (fun l' => R l' l) ls -> ordered R (ls ++ [l]).
Proof.
  induction ls as [| l0 ls IH]; simpl; [auto |].
  intros [H0 Hrest] Hall. apply Forall_cons in Hall as [Hl0 Hall].
  split; [| by apply IH].
  apply Forall_app. split; [exact H0 |]. by apply Forall_singleton.
Qed.

Lemma evict_sublist m ls : evict m ls `sublist_of` ls.
Proof.
  induction ls as [| l ls IH]; simpl; [constructor |].
  case_bool_decide; [by apply sublist_cons | done].
Qed.

Lemma in_use_order_sublist f i ls ls' :
  ls' `sublist_of` ls -> in_use_order f i ls -> in_use_order f i ls'.
Proof.
  intros Hsub [Ho Hb]. split; [by eapply ordered_sublist | by eapply Forall_sublist_of].
Qed.

Lemma in_use_order_ext f g i ls :
  (forall k, g k = f k) -> in_use_order f i ls -> in_use_order g (S i) ls.
Proof.
  intros Hfg [Ho Hb]. split.
  - eapply ordered_impl; [| exact Ho].
    intros l1 l2 _ _ (n1 & n2 & H1 & H2 & Hlt). exists n1, n2. by rewrite !Hfg.
  - eapply Forall_impl; [exact Hb |].
    intros l (n & Hn & Hlt). exists n. rewrite Hfg. split; [done | lia].
Qed.

(** Using [k] at position [i]: its entry goes to the end, the others
    keep their order. *)
Lemma in_use_order_touch f g i ls k l :
  link_key l = k ->
  g k = Some i -> (forall k', k' ≠ k -> g k' = f k') ->
  in_use_order f i ls ->
  in_use_order g (S i) (remove k ls ++ [l]).
Proof.
  intros Hl Hgk Hg [Ho Hb].
  assert (remove k ls `sublist_of` ls) as Hsub by apply sublist_filter.
  assert (forall l', l' ∈ remove k ls -> link_key l' ≠ k) as Hkeys.
  { intros l' Hl'. apply list_elem_of_filter in Hl'. tauto. }
  assert (forall l', l' ∈ remove k ls ->
            exists n, g (link_key l') = Some n /\ (n < i)%nat) as Hold.
  { intros l' Hl'. rewrite Hg by (by apply Hkeys).
    apply (proj1 (Forall_forall _ _) Hb). by eapply elem_of_sublist. }
  split.
  - apply ordered_snoc.
    + eapply ordered_impl; [| by eapply ordered_sublist].
      intros l1 l2 H1 H2 (n1 & n2 & E1 & E2 & Hlt). exists n1, n2.
      rewrite !Hg by (by apply Hkeys). done.
    + apply Forall_forall. intros l' Hl'.
      destruct (Hold l' Hl') as (n & Hn & Hlt).
      exists n, i. rewrite Hl. done.
  - apply Forall_app. split.
    + apply Forall_forall. intros l' Hl'.
      destruct (Hold l' Hl') as (n & Hn & Hlt). exists n. split; [done | lia].
    + apply Forall_singleton. exists i. rewrite Hl. split; [done | lia].
Qed.

Lemma step_in_use_order c o f i :
  in_use_order f i (links c) ->
  in_use_order (fun k => if decide (used c o = Some k) then Some i else f k)
               (S i) (links (step c o)).
Proof.
  intros Hinv. destruct o as [k time | k v time].
  - simpl step. unfold __getitem__.
    destruct (find k (links c)) as [l |] eqn:E.
    + assert (used c (Get k time) = Some k) as -> by (simpl; by rewrite E).
      assert (in_use_order
                (fun k' => if decide (Some k = Some k') then Some i else f k')
                (S i) (remove k (links c) ++ [l])) as H.
      { apply (in_use_order_touch f _ i (links c) k l); [| | | exact Hinv].
        - by apply find_Some in E as [? _].
        - by rewrite decide_True.
        - intros k' Hk'. rewrite decide_False; [done | congruence]. }
      by destruct (live time l).
    + assert (used c (Get k time) = None) as -> by (simpl; by rewrite E).
      simpl. eapply in_use_order_ext; [| exact Hinv].
      intros k'. cbv beta. first [done | by rewrite decide_False].
  - simpl step. unfold __setitem__.
    assert (expire time (links c) `sublist_of` links c) as Hexp by apply sublist_filter.
    case_bool_decide as Hmax.
    + assert (used c (Set_ k v time) = None) as ->
        by (simpl; by rewrite bool_decide_eq_true_2).
      simpl. eapply in_use_order_ext;
        [intros k'; cbv beta; first [done | by rewrite decide_False] |].
      by eapply in_use_order_sublist.
    + assert (used c (Set_ k v time) = Some k) as ->
        by (simpl; by rewrite bool_decide_eq_false_2).
      simpl. apply (in_use_order_touch f _ i); [done | by rewrite decide_True | |].
      * intros k' Hk'. rewrite decide_False; [done | congruence].
      * destruct (find k (expire time (links c))).
        -- by eapply in_use_order_sublist.
        -- eapply in_use_order_sublist; [apply evict_sublist |].
           by eapply in_use_order_sublist.
Qed.

Lemma in_use_order_same f g i ls :
  (forall k, g k = f k) -> in_use_order f i ls -> in_use_order g i ls.
Proof.
  intros Hfg [Ho Hb]. split.
  - eapply ordered_impl; [| exact Ho].
    intros l1 l2 _ _ (n1 & n2 & H1 & H2 & Hlt). exists n1, n2. by rewrite !Hfg.
  - eapply Forall_impl; [exact Hb |].
    intros l (n & Hn & Hlt). exists n. by rewrite Hfg.
Qed.

Lemma run_in_use_order ops c f i :
  in_use_order f i (links c) ->
  in_use_order
    (fun k => match last_use_from c i ops k with Some n => Some n | None => f k end)
    (i + length ops) (links (run c ops)).
Proof.
  revert c f i. induction ops as [| o ops IH]; intros c f i Hinv; simpl.
  - rewrite Nat.add_0_r. exact Hinv.
  - pose proof (IH _ _ _ (step_in_use_order c o f i Hinv)) as H.
    replace (i + S (length ops))%nat with (S i + length ops)%nat by lia.
    eapply in_use_order_same; [| exact H].
    intros k. simpl. destruct (last_use_from (step c o) (S i) ops k); [done |].
    by destruct (decide (used c o = Some k)).
Qed.

(** From the empty cache, after any history, the entries are in the
    order of their last use, the least recently used first. *)
Lemma links_in_use_order maxsize ttl ops :
  ordered (used_before (last_use (__init__ maxsize ttl) ops))
          (links (run (__init__ maxsize ttl) ops)).
Proof.
  pose proof (run_in_use_order ops (__init__ maxsize ttl) (fun _ => None) 0) as H.
  destruct H as [H _]; [by split |].
  eapply ordered_impl; [| exact H].
  intros l1 l2 _ _ (n1 & n2 & H1 & H2 & Hlt). exists n1, n2. unfold last_use.
  destruct (last_use_from _ 0 ops (link_key l1)); [| discriminate].
  destruct (last_use_from _ 0 ops (link_key l2)); [| discriminate]. done.
Qed.

(** A lookup counts as a use: with room for two entries, storing [a]
    and [b], looking up [a] and storing [c] drops [b], not [a]. *)
Example lookup_protects_from_eviction :
  link_key <$> links (run (__init__ 2 3600)
                        [Set_ ("a", None) None 0; Set_ ("b", None) None 1;
                         Get ("a", None) 2; Set_ ("c", None) None 3])
  = [("a", None); ("c", None)].
Proof. reflexivity. Qed.

End RecencyFacts.

(** ** [invoke_ak_api] *)

Module GatewayFacts.
Import Gateway PyFacts TTLCacheFacts.

Lemma getitem_Ok_inv c k time c' v :
  TTLCache.__getitem__ c k time = (c', Ok v) ->
  exists l, TTLCache.find k (TTLCache.links c) = Some l /\
            TTLCache.live time l = true /\ TTLCache.link_value l = v /\
            c' = TTLCache.with_links c (TTLCache.remove k (TTLCache.links c) ++ [l]).
Proof.
  unfold TTLCache.__getitem__.
  destruct (TTLCache.find k (TTLCache.links c)) as [l |]; [| discriminate].
  destruct (TTLCache.live time l) eqn:E; [| discriminate].
  intros [= <- <-]. eauto.
Qed.

Lemma getitem_Raise_inv c k time c' e :
  TTLCache.__getitem__ c k time = (c', Raise e) ->
  e = KeyError (fst k) /\ TTLCache.peek c k time = None /\
  TTLCache.same_entries c c'.
Proof.
  intros H. pose proof (getitem_peek c k time) as Hp.
  pose proof (getitem_same_entries c k time) as Hs.
  rewrite H in Hp, Hs. simpl in Hp, Hs.
  destruct (TTLCache.peek c k time); [discriminate |].
  injection Hp as ->. auto.
Qed.

(** [_fetch] either stops in [acquire] (only when [max_requests] is
    not positive) or calls the provider exactly once. *)
Lemma fetch_cases w item_id eval_str s :
  let cmd := cmd_of item_id eval_str in
  (exists rl e, _fetch w item_id eval_str s = (with_rate_limiter s rl, Raise e) /\
                RateLimiter.max_requests (rate_limiter s) <= 0) \/
  (exists rl, _fetch w item_id eval_str s =
                (with_call (with_rate_limiter s rl) cmd (eval_ w cmd),
                 result_of (eval_ w cmd))).
Proof.
  intros cmd. unfold _fetch.
  destruct (RateLimiter.acquire (rate_limiter s) (acquire_clock w)) as [rl [slept | e]] eqn:A.
  - right. simpl. eexists. fold cmd. destruct (eval_ w cmd); reflexivity.
  - left. exists rl, e. split; [reflexivity |].
    destruct (Z_lt_le_dec 0 (RateLimiter.max_requests (rate_limiter s))) as [Hpos | Hle];
      [| exact Hle].
    destruct (RateLimiterFacts.acquire_returns _ (acquire_clock w) Hpos) as (? & ? & A').
    congruence.
Qed.

Lemma fetch_returns w item_id eval_str s :
  0 < RateLimiter.max_requests (rate_limiter s) ->
  let cmd := cmd_of item_id eval_str in
  exists rl, _fetch w item_id eval_str s =
               (with_call (with_rate_limiter s rl) cmd (eval_ w cmd),
                result_of (eval_ w cmd)).
Proof.
  intros Hpos cmd. destruct (fetch_cases w item_id eval_str s) as [(rl & e & _ & Hle) | H].
  - lia.
  - exact H.
Qed.

(** What [_fetch] leaves alone, and that it calls at most once. *)
Lemma fetch_frame w item_id eval_str s s' r :
  _fetch w item_id eval_str s = (s', r) ->
  api_cache s' = api_cache s /\ enable_cache s' = enable_cache s /\
  (calls_since s s' = [] /\ provider_calls s' = provider_calls s /\ (exists e, r = Raise e) \/
   calls_since s s' = [(cmd_of item_id eval_str, eval_ w (cmd_of item_id eval_str))] /\
   provider_calls s' = provider_calls s ++ [(cmd_of item_id eval_str, eval_ w (cmd_of item_id eval_str))] /\
   r = result_of (eval_ w (cmd_of item_id eval_str))).
Proof.
  intros H. unfold calls_since.
  destruct (fetch_cases w item_id eval_str s) as [(rl & e & H' & _) | (rl & H')];
    rewrite H' in H; injection H as <- <-; simpl; (split; [reflexivity |]);
    (split; [reflexivity |]).
  - left. rewrite drop_all. eauto.
  - right. rewrite drop_app_length. auto.
Qed.

(** C2. With caching enabled, if a call for [(item_id, eval_str)]
    returns a payload, then a second call for the same pair whose
    lookup falls before the entry stops being served returns the same
    payload with status HIT, and makes no provider call and no rate
    limiter grant.  The first call reports HIT when the key was being
    served already and MISS otherwise; the provider is called at most
    once over the two calls. *)
Theorem invoke_twice_within_ttl (w1 w2 : world) (item_id : string)
    (eval_str : option string) (s s1 : State)
    (payload : option string) (st1 : cache_status) :
  enable_cache s = true ->
  invoke_ak_api w1 item_id eval_str s = (s1, Ok (payload, st1)) ->
  (timer_get w2 < served_until w1 (TTLCache.hashkey item_id eval_str) s)%Q ->
  exists s2,
    invoke_ak_api w2 item_id eval_str s1 = (s2, Ok (payload, HIT)) /\
    calls_since s1 s2 = [] /\
    rate_limiter s2 = rate_limiter s1 /\
    (st1 = HIT <->
       is_Some (TTLCache.peek (api_cache s) (TTLCache.hashkey item_id eval_str) (timer_get w1))) /\
    (st1 = MISS <->
       TTLCache.peek (api_cache s) (TTLCache.hashkey item_id eval_str) (timer_get w1) = None) /\
    (length (calls_since s s2) <= 1)%nat.
Proof.
  intros Hen H1 Httl. unfold invoke_ak_api in H1. rewrite Hen in H1. simpl in H1.
  set (key := TTLCache.hashkey item_id eval_str) in *.
  destruct (TTLCache.__getitem__ (api_cache s) key (timer_get w1)) as [c [v | e]] eqn:G.
  - (* the first call is served from the cache *)
    injection H1 as <- <- <-.
    apply getitem_Ok_inv in G as (l & Hfind & Hlive & <- & ->).
    assert (TTLCache.peek (api_cache s) key (timer_get w1) = Some (TTLCache.link_value l)) as Hpeek.
    { unfold TTLCache.peek. by rewrite Hfind, Hlive. }
    unfold served_until in Httl. rewrite Hfind, Hlive in Httl.
    pose proof (find_Some _ _ _ Hfind) as [Hk _].
    unfold invoke_ak_api. simpl. rewrite Hen. simpl. fold key.
    unfold TTLCache.__getitem__. simpl.
    rewrite (find_stored key _ l Hk).
    assert (TTLCache.live (timer_get w2) l = true) as -> by (by apply Qltb_lt).
    eexists. split; [reflexivity |]. unfold calls_since. simpl.
    rewrite drop_all. rewrite Hpeek.
    repeat split; try done; eauto.
  - (* the first call misses *)
    apply getitem_Raise_inv in G as (-> & Hpeek & (Hmax & Httl_eq & Hsame)).
    destruct (_fetch w1 item_id eval_str (with_api_cache s c)) as [s' [res | e]] eqn:F;
      [| discriminate].
    destruct (TTLCache.__setitem__ (api_cache s') key res (timer_set w1)) as [c' [[] | e]] eqn:S;
      [| discriminate].
    injection H1 as <- <- <-.
    apply fetch_frame in F as (Hc & Hen' & Hcalls). simpl in Hc, Hen'.
    apply setitem_Ok_inv in S as (_ & _ & _ & Hfind). rewrite Hc in Hfind.
    assert (served_until w1 key s = (timer_set w1 + inject_Z (TTLCache.ttl c))%Q) as Hdl.
    { unfold served_until. unfold TTLCache.peek in Hpeek. rewrite Httl_eq.
      destruct (TTLCache.find key (TTLCache.links (api_cache s))) as [l |]; [| reflexivity].
      destruct (TTLCache.live (timer_get w1) l); [discriminate | reflexivity]. }
    rewrite Hdl in Httl.
    unfold invoke_ak_api. simpl. rewrite Hen', Hen. simpl. fold key.
    unfold TTLCache.__getitem__. rewrite Hfind.
    assert (TTLCache.live (timer_get w2)
              (TTLCache.Link key res (timer_set w1 + inject_Z (TTLCache.ttl c))%Q) = true) as ->.
    { apply Qltb_lt. exact Httl. }
    eexists. split; [reflexivity |]. unfold calls_since in *. simpl in *.
    rewrite drop_all. rewrite Hpeek.
    repeat split; try done.
    destruct Hcalls as [(-> & _) | (-> & _)]; simpl; lia.
Qed.

Lemma invoke_twice_within_ttl_witness :
  exists s2,
    invoke_ak_api (Samples.world_at 100 Samples.returns_frame) "stock_zh_a_hist" None
      (fst (invoke_ak_api (Samples.world_at 0 Samples.returns_frame)
              "stock_zh_a_hist" None (Samples.state0 true)))
    = (s2, Ok (Some "[]", HIT)).
Proof.
  destruct (invoke_twice_within_ttl
              (Samples.world_at 0 Samples.returns_frame)
              (Samples.world_at 100 Samples.returns_frame)
              "stock_zh_a_hist" None (Samples.state0 true)
              (fst (invoke_ak_api (Samples.world_at 0 Samples.returns_frame)
                      "stock_zh_a_hist" None (Samples.state0 true)))
              (Some "[]") MISS) as (s2 & H & _).
  - reflexivity.
  - reflexivity.
  - vm_compute. reflexivity.
  - exists s2. exact H.
Defined.







Lemma invoke_miss_calls w item_id eval_str s :
  enable_cache s = true ->
  0 < RateLimiter.max_requests (rate_limiter s) ->
  TTLCache.peek (api_cache s) (TTLCache.hashkey item_id eval_str) (timer_get w) = None ->
  calls_since s (fst (invoke_ak_api w item_id eval_str s))
  = [(cmd_of item_id eval_str, eval_ w (cmd_of item_id eval_str))].
Proof.
  intros Hen Hpos Hpeek. unfold invoke_ak_api. rewrite Hen. simpl.
  pose proof (getitem_peek (api_cache s) (TTLCache.hashkey item_id eval_str) (timer_get w)) as Hp.
  rewrite Hpeek in Hp.
  destruct (TTLCache.__getitem__ _ _ _) as [c rc]. simpl in Hp. subst rc.
  destruct (fetch_returns w item_id eval_str (with_api_cache s c) Hpos) as (rl & ->).
  set (cmd := cmd_of item_id eval_str).
  assert (calls_since s (with_call (with_rate_limiter (with_api_cache s c) rl) cmd (eval_ w cmd))
          = [(cmd, eval_ w cmd)]) as Hcalls.
  { unfold calls_since. simpl. by rewrite drop_app_length. }
  destruct (eval_ w cmd); simpl; [| | exact Hcalls];
    destruct (TTLCache.__setitem__ _ _ _ _) as [c' [[] | e]]; exact Hcalls.
Qed.

(** C5. An entry stored at time [T], whatever lookups and stores of
    other keys follow, is not served at any time from [T + ttl] on: the
    lookup raises [KeyError], and [invoke_ak_api] goes to the provider.
    A cache that holds at most [maxsize] entries still does after any
    operation, so one that starts empty never holds more.  A store of a
    new key into a full cache of live entries drops the first entry, and
    after any history from the empty cache the entries stand in the
    order of their last use (a store, or a lookup that found the key):
    the entry dropped on overflow is the one least recently used. *)
Theorem cache_entries_expire_and_are_bounded (c c1 : TTLCache.t)
    (k : TTLCache.key) (v : option string) (T : Q) (ops : list TTLCache.op) :
  TTLCache.__setitem__ c k v T = (c1, Ok tt) ->
  forallb (λ o, negb (TTLCache.stores k o)) ops = true ->
  Z.of_nat (length (TTLCache.links c)) <= TTLCache.maxsize c ->
  let c2 := TTLCache.run c1 ops in
  (forall now, (T + inject_Z (TTLCache.ttl c) <= now)%Q ->
     TTLCache.peek c2 k now = None /\
     snd (TTLCache.__getitem__ c2 k now) = Raise (KeyError (fst k)) /\
     forall w item_id eval_str s,
       TTLCache.hashkey item_id eval_str = k -> api_cache s = c2 ->
       enable_cache s = true -> timer_get w = now ->
       0 < RateLimiter.max_requests (rate_limiter s) ->
       calls_since s (fst (invoke_ak_api w item_id eval_str s))
       = [(cmd_of item_id eval_str, eval_ w (cmd_of item_id eval_str))]) /\
  Z.of_nat (length (TTLCache.links c1)) <= TTLCache.maxsize c /\
  Z.of_nat (length (TTLCache.links c2)) <= TTLCache.maxsize c /\
  (forall maxsize ttl ops', 0 <= maxsize ->
     Z.of_nat (length (TTLCache.links
                         (TTLCache.run (TTLCache.__init__ maxsize ttl) ops')))
     <= maxsize) /\
  (forall l0 rest,
     TTLCache.links c = l0 :: rest ->
     Z.of_nat (length (TTLCache.links c)) = TTLCache.maxsize c ->
     (forall l, l ∈ TTLCache.links c -> TTLCache.live T l = true) ->
     TTLCache.find k (TTLCache.links c) = None ->
     TTLCache.links c1 =
       rest ++ [TTLCache.Link k v (T + inject_Z (TTLCache.ttl c))%Q]) /\
  (forall maxsize ttl history,
     Recency.ordered
       (Recency.used_before
          (Recency.last_use (TTLCache.__init__ maxsize ttl) history))
       (TTLCache.links (TTLCache.run (TTLCache.__init__ maxsize ttl) history))) /\
  (forall maxsize ttl history k' v' T' oldest rest,
     let c' := TTLCache.run (TTLCache.__init__ maxsize ttl) history in
     TTLCache.links c' = oldest :: rest ->
     Z.of_nat (length (TTLCache.links c')) = TTLCache.maxsize c' ->
     (forall l, l ∈ TTLCache.links c' -> TTLCache.live T' l = true) ->
     TTLCache.find k' (TTLCache.links c') = None ->
     TTLCache.links (fst (TTLCache.__setitem__ c' k' v' T')) =
       rest ++ [TTLCache.Link k' v' (T' + inject_Z (TTLCache.ttl c'))%Q] /\
     Forall (Recency.used_before
               (Recency.last_use (TTLCache.__init__ maxsize ttl) history) oldest)
            rest).
Proof.
  intros Hset Hops Hb c2.
  assert (Z.of_nat (length (TTLCache.links c1)) <= TTLCache.maxsize c) as Hb1.
  { pose proof (step_bounded c (TTLCache.Set_ k v T) Hb) as H.
    simpl in H. by rewrite Hset in H. }
  pose proof (setitem_Ok_inv _ _ _ _ _ Hset) as (_ & Hm1 & _ & _).
  split; [| split; [exact Hb1 | split; [| split; [| split; [| split]]]]].
  - intros now Hnow.
    assert (TTLCache.peek c2 k now = None) as Hpeek.
    { eapply peek_expired; [| exact Hnow].
      apply run_expires_by; [exact Hops |]. by eapply setitem_expires_by. }
    split; [exact Hpeek |]. split.
    + by rewrite getitem_peek, Hpeek.
    + intros w item_id eval_str s <- Hc Hen <- Hpos.
      apply invoke_miss_calls; [exact Hen | exact Hpos |]. by rewrite Hc.
  - rewrite <- Hm1. apply run_bounded. by rewrite Hm1.
  - intros maxsize ttl ops' Hm.
    apply (run_bounded (TTLCache.__init__ maxsize ttl)). simpl. lia.
  - intros l0 rest Hls Hfull Hlive Hfind.
    rewrite (setitem_evicts_lru c k v T l0 rest Hls Hfull Hlive Hfind) in Hset.
    by injection Hset as <-.
  - intros maxsize ttl history. apply RecencyFacts.links_in_use_order.
  - intros maxsize ttl history k' v' T' oldest rest c' Hls Hfull Hlive Hfind.
    rewrite (setitem_evicts_lru c' k' v' T' oldest rest Hls Hfull Hlive Hfind).
    split; [reflexivity |].
    pose proof (RecencyFacts.links_in_use_order maxsize ttl history) as Hord.
    fold c' in Hord. rewrite Hls in Hord. exact (proj1 Hord).
Qed.

Lemma cache_entries_expire_and_are_bounded_witness :
  let k := TTLCache.hashkey "stock_zh_a_hist" None in
  let c1 := fst (TTLCache.__setitem__ (TTLCache.__init__ 128 3600) k (Some "[]") 0) in
  let ops := [TTLCache.Get k 10; TTLCache.Set_ ("stock_zh_a_spot", None) None 20] in
  TTLCache.peek (TTLCache.run c1 ops) k 3599 = Some (Some "[]") /\
  TTLCache.peek (TTLCache.run c1 ops) k 3600 = None.
Proof.
  split; [reflexivity |].
  refine (proj1 (proj1 (cache_entries_expire_and_are_bounded
                   (TTLCache.__init__ 128 3600)
                   _ (TTLCache.hashkey "stock_zh_a_hist" None) (Some "[]") 0
                   [TTLCache.Get (TTLCache.hashkey "stock_zh_a_hist" None) 10;
                    TTLCache.Set_ ("stock_zh_a_spot", None) None 20]
                   eq_refl eq_refl _) 3600%Q _)).
  - simpl. lia.
  - vm_compute. discriminate.
Defined.

End GatewayFacts.

(** ** The endpoints *)

Module EndpointsFacts.
Import Gateway Endpoints PyFacts TTLCacheFacts GatewayFacts.


(** Both endpoints: the capability check, then the parameter string,
    then [invoke_ak_api] inside the [try]. *)
Lemma root_unfold ep w interface_list request item_id s :
  root ep w interface_list request item_id s =
  if bool_decide (item_id ∉ interface_list) then (s, Ok not_found_response)
  else match eval_str_of ep request with
       | Raise e => (s, Raise e)
       | Ok a => respond (invoke_ak_api w item_id a s)
       end.
Proof.
  destruct ep; simpl; unfold private_root, public_root;
    case_bool_decide; try reflexivity.
  - destruct (has_query_params request); reflexivity.
  - destruct (public_eval_str (decode_params request)); [| reflexivity].
    destruct (has_query_params request); reflexivity.
Qed.

Lemma invoke_hit w item_id eval_str s v :
  enable_cache s = true ->
  TTLCache.peek (api_cache s) (TTLCache.hashkey item_id eval_str) (timer_get w) = Some v ->
  exists s', invoke_ak_api w item_id eval_str s = (s', Ok (v, HIT)) /\
             calls_since s s' = [] /\ rate_limiter s' = rate_limiter s.
Proof.
  intros Hen Hpeek. unfold invoke_ak_api. rewrite Hen. simpl.
  pose proof (getitem_peek (api_cache s) (TTLCache.hashkey item_id eval_str) (timer_get w)) as Hp.
  rewrite Hpeek in Hp.
  destruct (TTLCache.__getitem__ _ _ _) as [c rc]. simpl in Hp. subst rc.
  eexists. split; [reflexivity |]. unfold calls_since. simpl.
  by rewrite drop_all.
Qed.


(** C6. An [item_id] outside the capability list gets the not-found
    response from either endpoint, whatever the cache and the rate
    limiter hold; the state is untouched, so no provider call is made
    and no grant is recorded. *)
Theorem unknown_operation_not_found (ep : endpoint) (w : world)
    (interface_list : list string) (request : Request) (item_id : string)
    (s : State) :
  item_id ∉ interface_list ->
  root ep w interface_list request item_id s = (s, Ok not_found_response) /\
  status_code not_found_response = HTTP_404_NOT_FOUND /\
  body not_found_response = ErrorContent MSG_UNKNOWN /\
  surface_status (Ok not_found_response) = 404.
Proof.
  intros Hout. rewrite root_unfold. rewrite bool_decide_eq_true_2 by exact Hout.
  by repeat split.
Qed.

Lemma unknown_operation_not_found_witness :
  root public (Samples.world_at 0 Samples.returns_frame) ["stock_zh_a_hist"]
       Samples.no_params "not_a_real_operation" (Samples.state0 true)
  = (Samples.state0 true, Ok not_found_response).
Proof.
  refine (proj1 (unknown_operation_not_found public _ ["stock_zh_a_hist"]
                   Samples.no_params "not_a_real_operation" _ _)).
  intros Hin. apply list_elem_of_singleton in Hin. discriminate.
Defined.







Example provider_failure_leaves_the_endpoint :
  snd (root public (Samples.world_at 0 Samples.raises_other) ["stock_zh_a_hist"]
         (Samples.with_params "symbol=000001") "stock_zh_a_hist" (Samples.state0 true))
  = Raise (OtherError "unexpected keyword argument").
Proof. reflexivity. Qed.


(** C4, as stated, fails: the capability check comes before the
    cache.  A first request, made while the name is in the capability
    list, stores its result; a second one, made while the entry is
    still served but the name is no longer listed, gets the not-found
    response from both endpoints, not the cached payload. *)
Lemma cached_key_is_still_checked :
  let s1 := fst (root private (Samples.world_at 0 Samples.returns_frame)
                   ["stock_zh_a_hist"] Samples.no_params "stock_zh_a_hist"
                   (Samples.state0 true)) in
  let w2 := Samples.world_at 100 Samples.returns_frame in
  enable_cache s1 = true /\
  TTLCache.peek (api_cache s1) (TTLCache.hashkey "stock_zh_a_hist" None) (timer_get w2)
    = Some (Some "[]") /\
  root private w2 [] Samples.no_params "stock_zh_a_hist" s1
    = (s1, Ok not_found_response) /\
  root public w2 [] Samples.no_params "stock_zh_a_hist" s1
    = (s1, Ok not_found_response).
Proof. vm_compute. repeat split. Qed.

(** C4, amended.  Take a request whose key is being served with a
    payload, caching enabled.  If the name is not in the capability
    list, the endpoint answers not-found and touches nothing, the
    cache notwithstanding.  If it is, the endpoint answers with the
    cached payload and status HIT, without a provider call or a
    grant. *)
Theorem capability_check_precedes_cache (ep : endpoint) (w : world)
    (interface_list : list string) (request : Request) (item_id : string)
    (s : State) (a : option string) (json : string) :
  enable_cache s = true ->
  eval_str_of ep request = Ok a ->
  TTLCache.peek (api_cache s) (TTLCache.hashkey item_id a) (timer_get w)
    = Some (Some json) ->
  (item_id ∉ interface_list ->
     root ep w interface_list request item_id s = (s, Ok not_found_response)) /\
  (item_id ∈ interface_list ->
     exists s',
       root ep w interface_list request item_id s =
         (s', Ok (mkResponse HTTP_200_OK (JsonContent json)
                    [("X-Cache-Status", "HIT")])) /\
       calls_since s s' = [] /\
       rate_limiter s' = rate_limiter s).
Proof.
  intros Hen Ha Hpeek. rewrite root_unfold, Ha. split; intros Hin.
  - by rewrite bool_decide_eq_true_2.
  - rewrite bool_decide_eq_false_2 by (intros Hout; exact (Hout Hin)).
    destruct (invoke_hit w item_id a s _ Hen Hpeek) as (s' & -> & Hcalls & Hrl).
    exists s'. by repeat split.
Qed.

Lemma capability_check_precedes_cache_witness :
  let s1 := fst (root private (Samples.world_at 0 Samples.returns_frame)
                   ["stock_zh_a_hist"] Samples.no_params "stock_zh_a_hist"
                   (Samples.state0 true)) in
  root public (Samples.world_at 100 Samples.returns_frame) [] Samples.no_params
       "stock_zh_a_hist" s1 = (s1, Ok not_found_response).
Proof.
  refine (proj1 (capability_check_precedes_cache public
                   (Samples.world_at 100 Samples.returns_frame) []
                   Samples.no_params "stock_zh_a_hist" _ None "[]" _ _ _) _).
  - reflexivity.
  - reflexivity.
  - vm_compute. reflexivity.
  - apply not_elem_of_nil.
Defined.

(** *** The parameter strings of the two endpoints *)

Import StrFacts.

Lemma private_eval_str_last q : Str.last (private_eval_str q) = Some Str.dquote.
Proof. unfold private_eval_str, quote_params. by rewrite last_app. Qed.

Lemma quote_params_keeps_plus q :
  Str.occurs Str.plus q = true -> Str.occurs Str.plus (quote_params q) = true.
Proof.
  intros H. unfold quote_params. rewrite occurs_app.
  apply orb_true_iff. left.
  apply occurs_replace_other; [intros E; vm_compute in E; discriminate E |].
  apply occurs_replace_other; [intros E; vm_compute in E; discriminate E |].
  exact H.
Qed.

Lemma public_eval_str_differs q e :
  Str.contains "+" q = true \/ Str.contains "cookie" q = true ->
  public_eval_str q = Ok e ->
  e <> private_eval_str q.
Proof.
  intros Hq He Heq. unfold public_eval_str in He.
  destruct (Str.contains "cookie" q) eqn:Hcookie.
  - (* the cookie branch ends in a single quote *)
    destruct (Str.split1 Str.equals q) as [name [value |]]; [| discriminate].
    injection He as He.
    pose proof (private_eval_str_last q) as Hlast. rewrite <- Heq, <- He in Hlast.
    rewrite !replace_app, !last_app in Hlast.
    vm_compute in Hlast. discriminate Hlast.
  - (* the other branch has lost every plus sign *)
    destruct Hq as [Hplus | ?]; [| discriminate].
    change (Str.contains (Str.chr Str.plus) q = true) in Hplus.
    rewrite contains_chr in Hplus.
    injection He as He.
    pose proof (quote_params_keeps_plus q Hplus) as Hkeeps.
    fold (private_eval_str q) in Hkeeps. rewrite <- Heq, <- He in Hkeeps.
    rewrite occurs_replace_self in Hkeeps by reflexivity. discriminate.
Qed.

Lemma cmd_of_inj item_id e1 e2 :
  cmd_of item_id (Some e1) = cmd_of item_id (Some e2) -> e1 = e2.
Proof.
  unfold cmd_of. intros H.
  apply (inj (String.app "ak.")) in H.
  apply (inj (String.app item_id)) in H.
  apply (inj (String.app "(")) in H.
  exact (app_chr_inj _ _ _ H).
Qed.

(** C10. For a query string that contains a plus sign or the word
    cookie, the parameter string built by [public_root] is never the
    one built by [private_root]: whenever the public one is built (it
    always is when the string contains an equals sign), it differs from
    the private one, and so do the provider command and the cache key
    made from it. *)
Theorem endpoints_build_different_eval_str (q item_id : string) :
  Str.contains "+" q = true \/ Str.contains "cookie" q = true ->
  public_eval_str q <> Ok (private_eval_str q) /\
  eval_str_of public (mkRequest q true) <> eval_str_of private (mkRequest q true) /\
  (Str.contains "=" q = true -> exists e, public_eval_str q = Ok e) /\
  (forall e, public_eval_str q = Ok e ->
     e <> private_eval_str q /\
     cmd_of item_id (Some e) <> cmd_of item_id (Some (private_eval_str q)) /\
     TTLCache.hashkey item_id (Some e)
       <> TTLCache.hashkey item_id (Some (private_eval_str q))).
Proof.
  intros Hq. pose proof (public_eval_str_differs q) as Hd.
  split; [| split; [| split]].
  - intros H. exact (Hd _ Hq H eq_refl).
  - simpl. destruct (public_eval_str q) as [e |] eqn:E; [| discriminate].
    intros [= H]. exact (Hd _ Hq eq_refl H).
  - intros Heq. unfold public_eval_str.
    destruct (Str.contains "cookie" q); [| eauto].
    change (Str.contains (Str.chr Str.equals) q = true) in Heq.
    rewrite contains_chr in Heq.
    destruct (split1_found _ _ Heq) as (name & value & ->). eauto.
  - intros e He. pose proof (Hd _ Hq He) as Hne. split; [exact Hne |]. split.
    + intros H. exact (Hne (cmd_of_inj _ _ _ H)).
    + intros [= H]. exact (Hne H).
Qed.

Lemma endpoints_build_different_eval_str_witness :
  public_eval_str "symbol=000001&adjust=a+b"
    <> Ok (private_eval_str "symbol=000001&adjust=a+b").
Proof.
  refine (proj1 (endpoints_build_different_eval_str
                   "symbol=000001&adjust=a+b" "stock_zh_a_hist" _)).
  left. reflexivity.
Defined.

Example same_request_two_endpoints :
  let w := Samples.world_at 0 Samples.returns_frame in
  let request := Samples.with_params "symbol=000001&adjust=a+b" in
  let run ep := fst (root ep w ["stock_zh_a_hist"] request "stock_zh_a_hist"
                       (Samples.state0 true)) in
  fst <$> provider_calls (run private)
    = ["ak.stock_zh_a_hist(symbol=" +:+ Shaper.q +:+ "000001" +:+ Shaper.q
       +:+ ", adjust=" +:+ Shaper.q +:+ "a+b" +:+ Shaper.q +:+ ")"] /\
  fst <$> provider_calls (run public)
    = ["ak.stock_zh_a_hist(symbol=" +:+ Shaper.q +:+ "000001" +:+ Shaper.q
       +:+ ", adjust=" +:+ Shaper.q +:+ "a b" +:+ Shaper.q +:+ ")"] /\
  TTLCache.link_key <$> TTLCache.links (api_cache (run private))
    <> TTLCache.link_key <$> TTLCache.links (api_cache (run public)).
Proof. vm_compute. repeat split. discriminate. Qed.

End EndpointsFacts.

(** * Further properties of the code *)

(** ** The rate limiter beyond the cap *)

Module RateLimiterMore.
Import RateLimiter Window PyFacts.

Lemma popleft_while_compose c1 c2 ts :
  (c1 <= c2)%Q ->
  popleft_while c2 (popleft_while c1 ts) = popleft_while c2 ts.
Proof.
  intros Hle. induction ts as [| t0 ts IH]; [reflexivity |].
  simpl. destruct (Qltb t0 c1) eqn:E1; [| reflexivity].
  apply Qltb_lt in E1.
  assert (Qltb t0 c2 = true) as -> by (apply Qltb_lt; lra).
  exact IH.
Qed.

Lemma popleft_while_suffix cutoff ts : popleft_while cutoff ts `suffix_of` ts.
Proof.
  induction ts as [| t0 ts IH]; simpl; [done |].
  destruct (Qltb t0 cutoff); [| done]. by apply suffix_cons_r.
Qed.

Lemma nondecreasing_suffix ts kept :
  kept `suffix_of` ts -> nondecreasing ts -> nondecreasing kept.
Proof.
  intros [front ->]. induction front as [| t0 front IH]; simpl; [done |].
  intros [_ H]. by apply IH.
Qed.

Lemma nondecreasing_snoc ts t_new :
  nondecreasing ts -> Forall (fun t0 => (t0 <= t_new)%Q) ts ->
  nondecreasing (ts ++ [t_new]).
Proof.
  induction ts as [| t0 ts IH]; simpl; [auto |].
  intros [Hhead Hrest] Hall. apply Forall_cons in Hall as [H0 Hall].
  split; [| by apply IH].
  apply Forall_app. split; [exact Hhead |]. by apply Forall_singleton.
Qed.

(** What a call that returns has done to the deque. *)
Lemma acquire_Ok_inv self clk self' slept :
  acquire self clk = (self', Ok slept) ->
  exists kept,
    kept `suffix_of` request_timestamps self /\
    self' = mk (max_requests self) (window_seconds self)
               (kept ++ [granted_at clk slept]).
Proof.
  unfold acquire, append, _clean_old_requests.
  cbn [max_requests window_seconds request_timestamps].
  pose proof (popleft_while_suffix
                (now clk - inject_Z (window_seconds self))%Q
                (request_timestamps self)) as Hsuf.
  destruct (popleft_while (now clk - inject_Z (window_seconds self))%Q
              (request_timestamps self)) as [| oldest rest].
  - case_bool_decide; [discriminate |].
    intros [= <- <-]. exists []. by split.
  - pose proof (popleft_while_suffix
                  (now_after_sleep clk - inject_Z (window_seconds self))%Q
                  (oldest :: rest)) as Hsuf2.
    case_bool_decide.
    + destruct (Qltb 0 _).
      * intros [= <- <-]. eexists. split; [| reflexivity]. by etrans.
      * intros [= <- <-]. exists (oldest :: rest). by split.
    + intros [= <- <-]. exists (oldest :: rest). by split.
Qed.

(** X1. Purging at one time and then at a later time leaves what a
    single purge at the later time leaves. *)
Theorem clean_old_requests_compose (self : t) (t1 t2 : Q) :
  (t1 <= t2)%Q ->
  _clean_old_requests (_clean_old_requests self t1) t2
  = _clean_old_requests self t2.
Proof.
  intros Hle. unfold _clean_old_requests. simpl. f_equal.
  apply popleft_while_compose. lra.
Qed.

Lemma clean_old_requests_compose_witness :
  _clean_old_requests (_clean_old_requests (mk 2 60 [0%Q; 30%Q; 90%Q]) 70) 100
  = _clean_old_requests (mk 2 60 [0%Q; 30%Q; 90%Q]) 100.
Proof.
  apply (clean_old_requests_compose (mk 2 60 [0%Q; 30%Q; 90%Q]) 70 100).
  vm_compute. discriminate.
Defined.

(** X2. A call that returns keeps a tail of the old deque, in order,
    and appends exactly one timestamp: the clock read on entry, or the
    clock read after the sleep when it slept.  The limits are unchanged. *)
Theorem acquire_appends_one_grant (self self' : t) (clk : clock)
    (slept : option Q) :
  acquire self clk = (self', Ok slept) ->
  exists kept,
    kept `suffix_of` request_timestamps self /\
    request_timestamps self' = kept ++ [granted_at clk slept] /\
    max_requests self' = max_requests self /\
    window_seconds self' = window_seconds self.
Proof.
  intros H. destruct (acquire_Ok_inv _ _ _ _ H) as (kept & Hsuf & ->).
  exists kept. by repeat split.
Qed.

Lemma acquire_appends_one_grant_witness :
  exists kept,
    kept `suffix_of` [5%Q; 6%Q] /\
    request_timestamps
      (fst (acquire (mk 2 60 [5%Q; 6%Q]) (Clock 7 (1#5) (66#1))))
    = kept ++ [66%Q].
Proof.
  destruct (acquire_appends_one_grant (mk 2 60 [5%Q; 6%Q]) _
              (Clock 7 (1#5) (66#1)) _ eq_refl) as (kept & H1 & H2 & _).
  exists kept. split; [exact H1 | exact H2].
Defined.

(** X3. If the deque is in time order, no timestamp is later than the
    clock read on entry, and the clock does not go back over the sleep,
    then after a call that returns the deque is again in time order and
    no timestamp is later than the one just appended. *)
Theorem acquire_keeps_time_order (self self' : t) (clk : clock)
    (slept : option Q) :
  nondecreasing (request_timestamps self) ->
  Forall (fun t0 => (t0 <= now clk)%Q) (request_timestamps self) ->
  (now clk <= now_after_sleep clk)%Q ->
  acquire self clk = (self', Ok slept) ->
  nondecreasing (request_timestamps self') /\
  Forall (fun t0 => (t0 <= granted_at clk slept)%Q) (request_timestamps self') /\
  (now clk <= granted_at clk slept)%Q.
Proof.
  intros Hsorted Hall Hclock H.
  destruct (acquire_Ok_inv _ _ _ _ H) as (kept & Hsuf & ->). simpl.
  assert (now clk <= granted_at clk slept)%Q as Hg.
  { destruct slept; simpl; lra. }
  assert (Forall (fun t0 => (t0 <= granted_at clk slept)%Q) kept) as Hkept.
  { destruct Hsuf as [front Hfront]. rewrite Hfront in Hall.
    apply Forall_app in Hall as [_ Hall].
    eapply Forall_impl; [exact Hall |]. intros x Hx. simpl in Hx. lra. }
  split; [| split; [| exact Hg]].
  - apply nondecreasing_snoc; [| exact Hkept].
    by eapply nondecreasing_suffix.
  - apply Forall_app. split; [exact Hkept |]. apply Forall_singleton. lra.
Qed.

Lemma acquire_keeps_time_order_witness :
  nondecreasing
    (request_timestamps (fst (acquire (mk 2 60 [5%Q; 6%Q]) (Clock 7 (1#5) (66#1))))).
Proof.
  refine (proj1 (acquire_keeps_time_order (mk 2 60 [5%Q; 6%Q]) _
                   (Clock 7 (1#5) (66#1)) _ _ _ _ eq_refl)).
  - simpl. repeat split; repeat constructor; vm_compute; discriminate.
  - repeat constructor; vm_compute; discriminate.
  - vm_compute. discriminate.
Defined.

Lemma filter_all {A} (P : A -> Prop) `{!forall x, Decision (P x)} (l : list A) :
  Forall P l -> filter P l = l.
Proof.
  induction 1 as [| x l Hx _ IH]; [reflexivity |].
  rewrite filter_cons_True by exact Hx. by rewrite IH.
Qed.

Lemma popleft_while_sorted cutoff ts :
  nondecreasing ts -> popleft_while cutoff ts = recent cutoff ts.
Proof.
  unfold recent. induction ts as [| t0 ts IH]; [reflexivity |].
  simpl. intros [Hhead Hrest]. destruct (Qltb t0 cutoff) eqn:E.
  - apply Qltb_lt in E. rewrite filter_cons_False; [by apply IH |].
    intros H. apply Qle_bool_iff in H. lra.
  - apply Qltb_ge in E. symmetry. apply filter_all. constructor.
    + by apply Qle_bool_iff.
    + eapply Forall_impl; [exact Hhead |]. intros x Hx. simpl in Hx.
      apply Qle_bool_iff. lra.
Qed.

(** X4. On a deque in time order the purge removes every timestamp
    older than the window and nothing else, so the number reported by
    [get_remaining_requests] is [max_requests] minus the grants of the
    last [window_seconds], cut off at zero. *)
Theorem get_remaining_requests_counts_window (self : t) (current_time : Q) :
  nondecreasing (request_timestamps self) ->
  let in_window :=
    recent (current_time - inject_Z (window_seconds self))%Q
           (request_timestamps self) in
  get_remaining_requests self current_time
  = (mk (max_requests self) (window_seconds self) in_window,
     Z.max 0 (max_requests self - Z.of_nat (length in_window))).
Proof.
  intros Hsorted. unfold get_remaining_requests, _clean_old_requests. simpl.
  by rewrite (popleft_while_sorted _ _ Hsorted).
Qed.

Lemma get_remaining_requests_counts_window_witness :
  get_remaining_requests (mk 3 60 [0%Q; 50%Q; 90%Q]) 100
  = (mk 3 60 [50%Q; 90%Q], 1).
Proof.
  refine (get_remaining_requests_counts_window (mk 3 60 [0%Q; 50%Q; 90%Q]) 100 _).
  simpl. repeat split; repeat constructor; vm_compute; discriminate.
Defined.

(** Out of time order the purge stops at the first recent timestamp and
    an old one behind it is still counted. *)
Example get_remaining_requests_out_of_order :
  get_remaining_requests (mk 2 60 [90%Q; 0%Q]) 100 = (mk 2 60 [90%Q; 0%Q], 0).
Proof. reflexivity. Qed.

Lemma acquire_init_raises (m w : Z) (clk : clock) :
  m <= 0 ->
  acquire (__init__ m w) clk
  = (__init__ m w, Raise (IndexError "deque index out of range")).
Proof.
  intros Hmax. unfold acquire, __init__, _clean_old_requests. simpl.
  by rewrite bool_decide_eq_true_2 by (simpl; lia).
Qed.

(** X6. A limiter created with a limit of zero or less grants nothing:
    every call raises [IndexError] on the empty deque and records
    nothing, so a history of calls stops at the first one. *)
Theorem acquire_nonpositive_limit_raises (max_requests window_seconds : Z)
    (clk : clock) (clks : list clock) :
  max_requests <= 0 ->
  acquire (__init__ max_requests window_seconds) clk
  = (__init__ max_requests window_seconds,
     Raise (IndexError "deque index out of range")) /\
  acquire_all (__init__ max_requests window_seconds) (clk :: clks)
  = (__init__ max_requests window_seconds, []).
Proof.
  intros Hmax.
  pose proof (acquire_init_raises max_requests window_seconds clk Hmax) as Hacq.
  split; [exact Hacq |]. simpl. by rewrite Hacq.
Qed.

Lemma acquire_nonpositive_limit_raises_witness :
  acquire (__init__ 0 60) (Clock 0 (1#5) 0)
  = (__init__ 0 60, Raise (IndexError "deque index out of range")).
Proof.
  refine (proj1 (acquire_nonpositive_limit_raises 0 60 (Clock 0 (1#5) 0) [] _)).
  lia.
Defined.

(** X7. If [get_remaining_requests] reports a positive number at some
    clock reading, then [acquire] at the same reading is granted at once:
    it does not sleep and appends that reading, whether it is called on
    the limiter as it was or as the report left it. *)
Theorem remaining_positive_admits (self self1 : t) (remaining : Z) (clk : clock) :
  get_remaining_requests self (now clk) = (self1, remaining) ->
  0 < remaining ->
  acquire self clk = (append self1 (now clk), Ok None) /\
  acquire self1 clk = (append self1 (now clk), Ok None).
Proof.
  unfold get_remaining_requests. intros [= <- <-] Hpos.
  assert (_clean_old_requests (_clean_old_requests self (now clk)) (now clk)
          = _clean_old_requests self (now clk)) as Hidem.
  { unfold _clean_old_requests. simpl. f_equal.
    apply popleft_while_compose. lra. }
  assert (forall rl, _clean_old_requests rl (now clk) = _clean_old_requests self (now clk) ->
            acquire rl clk
            = (append (_clean_old_requests self (now clk)) (now clk), Ok None)) as Hacq.
  { intros rl Hrl. unfold acquire. rewrite Hrl.
    rewrite bool_decide_eq_false_2; [reflexivity |].
    change (max_requests (_clean_old_requests self (now clk)))
      with (max_requests self) in *.
    change (request_timestamps (_clean_old_requests self (now clk)))
      with (popleft_while (now clk - inject_Z (window_seconds self))%Q
              (request_timestamps self)). lia. }
  split; apply Hacq; [reflexivity | exact Hidem].
Qed.

Lemma remaining_positive_admits_witness :
  acquire (mk 3 60 [0%Q; 50%Q; 90%Q]) (Clock 100 (1#5) 100)
  = (mk 3 60 [50%Q; 90%Q; 100%Q], Ok None).
Proof.
  refine (proj1 (remaining_positive_admits (mk 3 60 [0%Q; 50%Q; 90%Q]) _ 1
                   (Clock 100 (1#5) 100) eq_refl _)).
  lia.
Defined.

End RateLimiterMore.

(** ** Proxies and the patched request *)

Module ShaperMore.
Import Shaper Proxies.

Lemma truthy_true v : truthy v = true -> exists s, v = Some s /\ s ≠ "".
Proof.
  destruct v as [s |]; simpl; [| discriminate].
  intros H. apply bool_decide_eq_true in H. eauto.
Qed.

(** The table in terms of the two values read from the environment. *)
Lemma PROXIES_cases environ :
  PROXIES environ =
  match truthy (_http_proxy environ), truthy (_https_proxy environ) with
  | true, true =>
      <["https" := default "" (_https_proxy environ)]>
        (<["http" := default "" (_http_proxy environ)]> ∅)
  | true, false =>
      <["https" := default "" (_http_proxy environ)]>
        (<["http" := default "" (_http_proxy environ)]> ∅)
  | false, true => <["https" := default "" (_https_proxy environ)]> ∅
  | false, false => ∅
  end.
Proof.
  unfold PROXIES.
  destruct (truthy (_http_proxy environ)) eqn:Eh;
    destruct (truthy (_https_proxy environ)) eqn:Es; simpl;
    try (destruct (truthy_true _ Eh) as (h & -> & _));
    try (destruct (truthy_true _ Es) as (hs & -> & _)); reflexivity.
Qed.

Lemma PROXIES_table (environ : gmap string string) :
  let http := _http_proxy environ in
  let https := _https_proxy environ in
  (PROXIES environ = ∅ <-> truthy http = false /\ truthy https = false) /\
  (PROXIES environ !! "http" = if truthy http then http else None) /\
  (PROXIES environ !! "https" =
     if truthy https then https else if truthy http then http else None) /\
  (forall k, k ≠ "http" -> k ≠ "https" -> PROXIES environ !! k = None).
Proof.
  intros http https. rewrite PROXIES_cases. fold http https.
  destruct (truthy http) eqn:Eh; destruct (truthy https) eqn:Es;
    try (destruct (truthy_true _ Eh) as (h & Hh & _); rewrite Hh);
    try (destruct (truthy_true _ Es) as (hs & Hs & _); rewrite Hs); simpl.
  - split; [split; [intros H | intros [? ?]; congruence] |].
    { exfalso. exact (insert_non_empty _ _ _ H). }
    split; [by simplify_map_eq |]. split; [by simplify_map_eq |].
    intros k Hk1 Hk2. by simplify_map_eq.
  - split; [split; [intros H | intros [? ?]; congruence] |].
    { exfalso. exact (insert_non_empty _ _ _ H). }
    split; [by simplify_map_eq |]. split; [by simplify_map_eq |].
    intros k Hk1 Hk2. by simplify_map_eq.
  - split; [split; [intros H | intros [? ?]; congruence] |].
    { exfalso. exact (insert_non_empty _ _ _ H). }
    split; [by simplify_map_eq |]. split; [by simplify_map_eq |].
    intros k Hk1 Hk2. by simplify_map_eq.
  - split; [done |]. split; [done |]. split; [done |].
    intros k _ _. apply lookup_empty.
Qed.

(** X8. The proxy table has no entry when neither proxy is configured
    with a non-empty value.  When an HTTP proxy is configured, both
    schemes are routed: [https] goes to the HTTPS proxy if there is one
    and to the HTTP proxy otherwise.  No other key is ever present. *)
Theorem proxies_https_falls_back_to_http (environ : gmap string string) :
  let http := _http_proxy environ in
  let https := _https_proxy environ in
  (PROXIES environ = ∅ <-> truthy http = false /\ truthy https = false) /\
  (PROXIES environ !! "http" = if truthy http then http else None) /\
  (PROXIES environ !! "https" =
     if truthy https then https else if truthy http then http else None) /\
  (forall k, k ≠ "http" -> k ≠ "https" -> PROXIES environ !! k = None).
Proof. exact (PROXIES_table environ). Qed.

(** X9. A request that names its own proxies keeps them, whatever the
    environment says.  A request without proxies gets the environment's
    table when an HTTP proxy is configured, with both schemes routed, and
    is left without proxies when nothing is configured. *)
Theorem patched_request_proxies (ua : string) (environ : gmap string string)
    (random_delay : bool) (delay : Q) (kw : kwargs) :
  let out := fst (_patched_request ua (PROXIES environ) random_delay delay kw) in
  (forall p, proxies kw = Some p -> proxies out = Some p) /\
  (proxies kw = None -> truthy (_http_proxy environ) = true ->
     exists table,
       proxies out = Some table /\
       table !! "http" = _http_proxy environ /\
       is_Some (table !! "https")) /\
  (proxies kw = None -> truthy (_http_proxy environ) = false ->
     truthy (_https_proxy environ) = false -> proxies out = None).
Proof.
  intros out. subst out. unfold _patched_request. simpl.
  pose proof (PROXIES_table environ) as (Hempty & Hhttp & Hhttps & _).
  simpl in Hempty, Hhttp, Hhttps.
  split; [| split].
  - intros p Hp. rewrite Hp.
    rewrite (bool_decide_eq_false_2 (Some p = None)) by discriminate.
    by rewrite andb_false_r.
  - intros Hnone Eh. rewrite Hnone.
    assert (PROXIES environ ≠ ∅) as Hne.
    { intros H. apply Hempty in H as [H _]. congruence. }
    rewrite !bool_decide_eq_true_2 by done. simpl.
    exists (PROXIES environ). split; [reflexivity |].
    rewrite Hhttp, Hhttps, Eh. split; [reflexivity |].
    destruct (truthy_true _ Eh) as (h & -> & _).
    destruct (truthy (_https_proxy environ)) eqn:Es; [| by eexists].
    destruct (truthy_true _ Es) as (hs & -> & _). by eexists.
  - intros Hnone Eh Es. rewrite Hnone.
    rewrite (bool_decide_eq_false_2 (PROXIES environ ≠ ∅)); [reflexivity |].
    intros H. apply H. by apply Hempty.
Qed.

Example only_http_proxy_configured :
  proxies (fst (_patched_request "UA"
                  (PROXIES {["HTTP_PROXY" := "http://127.0.0.1:7890"]})
                  false 0 (Kwargs None None)))
  = Some (<["https" := "http://127.0.0.1:7890"]>
            (<["http" := "http://127.0.0.1:7890"]> ∅)).
Proof. by vm_compute. Qed.

Lemma union_absorb (m1 m2 : gmap string string) : (m1 ∪ m2) ∪ m2 = m1 ∪ m2.
Proof.
  apply map_eq. intros k. rewrite !lookup_union.
  destruct (m1 !! k), (m2 !! k); reflexivity.
Qed.

(** X10. Patching is idempotent: passing the keyword arguments that the
    patch produced through the patch again changes neither the headers
    nor the proxies. *)
Theorem patched_request_idempotent (ua : string) (PROXIES : gmap string string)
    (rd1 rd2 : bool) (delay1 delay2 : Q) (kw : kwargs) :
  fst (_patched_request ua PROXIES rd2 delay2
         (fst (_patched_request ua PROXIES rd1 delay1 kw)))
  = fst (_patched_request ua PROXIES rd1 delay1 kw).
Proof.
  unfold _patched_request. simpl. f_equal.
  - f_equal. destruct (headers kw) as [caller |]; unfold update.
    + apply union_absorb.
    + apply map_union_idemp.
  - destruct (proxies kw) as [p |]; simpl.
    + rewrite andb_false_r. simpl. by rewrite andb_false_r.
    + destruct (bool_decide (PROXIES ≠ ∅)); simpl; reflexivity.
Qed.

End ShaperMore.

(** ** The parameter string and the responses *)

Module EndpointsMore.
Import Gateway Endpoints PyFacts StrFacts TTLCacheFacts GatewayFacts EndpointsFacts.

Lemma replace_absent old new s :
  Str.occurs old s = false -> Str.replace old new s = s.
Proof.
  induction s as [| a s IH]; [reflexivity |].
  simpl. destruct (Ascii.eqb a old); [discriminate |].
  simpl. intros H. by rewrite IH.
Qed.

Lemma occurs_replace_absent c old new s :
  Str.occurs c s = false -> Str.occurs c new = false ->
  Str.occurs c (Str.replace old new s) = false.
Proof.
  intros Hs Hnew. induction s as [| a s IH]; [reflexivity |].
  simpl in Hs. apply orb_false_iff in Hs as [Ha Hs]. simpl.
  destruct (Ascii.eqb a old).
  - by rewrite occurs_app, Hnew, IH.
  - simpl. by rewrite Ha, IH.
Qed.

Lemma split1_join sep name value :
  Str.occurs sep name = false ->
  Str.split1 sep (name +:+ String sep value) = (name, Some value).
Proof.
  induction name as [| a name IH].
  - intros _. rewrite app_nil_l. simpl. by rewrite Ascii.eqb_refl.
  - intros H. simpl in H. apply orb_false_iff in H as [Ha H].
    rewrite app_cons. simpl. rewrite Ha. by rewrite IH.
Qed.

Lemma quote_params_no_plus q :
  Str.occurs Str.plus q = false -> Str.occurs Str.plus (quote_params q) = false.
Proof.
  intros H. unfold quote_params. rewrite occurs_app.
  rewrite occurs_replace_absent; [reflexivity | | reflexivity].
  by apply occurs_replace_absent.
Qed.

(** The string built for [a & b] is the string for [a], a comma and a
    space, and the string for [b]. *)
Lemma quote_params_amp a b :
  quote_params (a +:+ String Str.amp b)
  = quote_params a +:+ ", " +:+ quote_params b.
Proof.
  unfold quote_params. rewrite replace_app.
  change (Str.replace Str.amp (Str.chr Str.dquote +:+ ", ") (String Str.amp b))
    with ((Str.chr Str.dquote +:+ ", ")
          +:+ Str.replace Str.amp (Str.chr Str.dquote +:+ ", ") b).
  rewrite !replace_app.
  change (Str.replace Str.equals ("=" +:+ Str.chr Str.dquote)
            (Str.chr Str.dquote +:+ ", "))
    with (Str.chr Str.dquote +:+ ", ").
  by rewrite !app_assoc.
Qed.

Lemma quote_params_pair name value :
  Str.occurs Str.amp name = false -> Str.occurs Str.equals name = false ->
  Str.occurs Str.amp value = false -> Str.occurs Str.equals value = false ->
  quote_params (name +:+ String Str.equals value)
  = name +:+ "=" +:+ Shaper.q +:+ value +:+ Shaper.q.
Proof.
  intros Hn1 Hn2 Hv1 Hv2. unfold quote_params.
  rewrite (replace_absent Str.amp).
  2: { rewrite occurs_app. simpl. by rewrite Hn1, Hv1. }
  rewrite replace_app.
  change (Str.replace Str.equals ("=" +:+ Str.chr Str.dquote) (String Str.equals value))
    with (("=" +:+ Str.chr Str.dquote)
          +:+ Str.replace Str.equals ("=" +:+ Str.chr Str.dquote) value).
  rewrite !(replace_absent Str.equals) by assumption.
  by rewrite !app_assoc.
Qed.

(** X11. For a query string without a plus sign and without the word
    cookie, [public_root] builds the parameter string that
    [private_root] builds, and the two endpoints give the same result
    and leave the same state. *)
Theorem endpoints_agree_without_plus_and_cookie (w : world)
    (interface_list : list string) (q : string) (has_query_params : bool)
    (item_id : string) (s : State) :
  Str.contains "+" q = false ->
  Str.contains "cookie" q = false ->
  public_eval_str q = Ok (private_eval_str q) /\
  root public w interface_list (mkRequest q has_query_params) item_id s
  = root private w interface_list (mkRequest q has_query_params) item_id s.
Proof.
  intros Hplus Hcookie.
  change (Str.contains (Str.chr Str.plus) q = false) in Hplus.
  rewrite contains_chr in Hplus.
  assert (public_eval_str q = Ok (private_eval_str q)) as Heq.
  { unfold public_eval_str, private_eval_str. rewrite Hcookie.
    by rewrite replace_absent by (by apply quote_params_no_plus). }
  split; [exact Heq |].
  rewrite !root_unfold. simpl. by rewrite Heq.
Qed.

Lemma endpoints_agree_without_plus_and_cookie_witness :
  public_eval_str "symbol=000001&period=daily"
  = Ok (private_eval_str "symbol=000001&period=daily").
Proof.
  refine (proj1 (endpoints_agree_without_plus_and_cookie
                   (Samples.world_at 0 Samples.returns_frame) []
                   "symbol=000001&period=daily" true "stock_zh_a_hist"
                   (Samples.state0 true) _ _)); reflexivity.
Defined.

(** X12. A pair [name=value] whose name and value contain neither an
    ampersand nor an equals sign becomes [name], an equals sign and the
    value in double quotes; and a pair followed by an ampersand and more
    parameters becomes that, a comma, a space, and the string built for
    the rest. *)
Theorem quote_params_pairs (name value rest : string) :
  Str.occurs Str.amp name = false -> Str.occurs Str.equals name = false ->
  Str.occurs Str.amp value = false -> Str.occurs Str.equals value = false ->
  private_eval_str (name +:+ "=" +:+ value)
  = name +:+ "=" +:+ Shaper.q +:+ value +:+ Shaper.q /\
  private_eval_str (name +:+ "=" +:+ value +:+ "&" +:+ rest)
  = name +:+ "=" +:+ Shaper.q +:+ value +:+ Shaper.q +:+ ", "
    +:+ private_eval_str rest.
Proof.
  intros Hn1 Hn2 Hv1 Hv2. unfold private_eval_str.
  split; [by apply quote_params_pair |].
  change (name +:+ "=" +:+ value +:+ "&" +:+ rest)
    with (name +:+ String Str.equals (value +:+ String Str.amp rest)).
  replace (name +:+ String Str.equals (value +:+ String Str.amp rest))
    with ((name +:+ String Str.equals value) +:+ String Str.amp rest)
    by (by rewrite app_assoc).
  rewrite quote_params_amp, quote_params_pair by assumption.
  by rewrite !app_assoc.
Qed.

Lemma quote_params_pairs_witness :
  private_eval_str "symbol=000001&period=daily"
  = "symbol" +:+ "=" +:+ Shaper.q +:+ "000001" +:+ Shaper.q +:+ ", "
    +:+ private_eval_str "period=daily".
Proof.
  refine (proj2 (quote_params_pairs "symbol" "000001" "period=daily" _ _ _ _));
    reflexivity.
Defined.

(** X13. In the cookie branch of [public_root] only the first equals
    sign splits: a name without an equals sign is kept, and everything
    after it, ampersands and further equals signs included, becomes one
    argument in single quotes, with each plus sign turned into a space. *)
Theorem cookie_value_is_one_argument (name value : string) :
  Str.contains "cookie" (name +:+ "=" +:+ value) = true ->
  Str.occurs Str.equals name = false ->
  public_eval_str (name +:+ "=" +:+ value)
  = Ok (Str.replace Str.plus " " name +:+ "=" +:+ Str.chr Str.squote
        +:+ Str.replace Str.plus " " value +:+ Str.chr Str.squote) /\
  (Str.occurs Str.plus name = false -> Str.occurs Str.plus value = false ->
   public_eval_str (name +:+ "=" +:+ value)
   = Ok (name +:+ "=" +:+ Str.chr Str.squote +:+ value +:+ Str.chr Str.squote)).
Proof.
  intros Hcookie Hname.
  assert (public_eval_str (name +:+ "=" +:+ value)
          = Ok (Str.replace Str.plus " " name +:+ "=" +:+ Str.chr Str.squote
                +:+ Str.replace Str.plus " " value +:+ Str.chr Str.squote)) as H.
  { unfold public_eval_str. rewrite Hcookie.
    change (name +:+ "=" +:+ value) with (name +:+ String Str.equals value).
    rewrite (split1_join _ _ _ Hname). by rewrite !replace_app. }
  split; [exact H |].
  intros Hp1 Hp2. rewrite H. by rewrite !replace_absent by assumption.
Qed.

Lemma cookie_value_is_one_argument_witness :
  public_eval_str "cookie=a=1&b=2 c"
  = Ok ("cookie" +:+ "=" +:+ Str.chr Str.squote +:+ "a=1&b=2 c" +:+ Str.chr Str.squote).
Proof.
  refine (proj2 (cookie_value_is_one_argument "cookie" "a=1&b=2 c" _ _) _ _);
    reflexivity.
Defined.

End EndpointsMore.

(** ** One request, end to end *)

Module GatewayMore.
Import Gateway Endpoints PyFacts TTLCacheFacts GatewayFacts EndpointsFacts.

(** What any invocation does to the trace and to the configuration, by
    the status it reports. *)
Lemma invoke_cases w item_id eval_str s s' r :
  invoke_ak_api w item_id eval_str s = (s', r) ->
  enable_cache s' = enable_cache s /\
  TTLCache.maxsize (api_cache s') = TTLCache.maxsize (api_cache s) /\
  TTLCache.ttl (api_cache s') = TTLCache.ttl (api_cache s) /\
  exists new,
    provider_calls s' = provider_calls s ++ new /\
    match r with
    | Ok (_, HIT) => new = [] /\ enable_cache s = true
    | Ok (_, MISS) => length new = 1%nat /\ enable_cache s = true
    | Ok (_, DISABLED) => length new = 1%nat /\ enable_cache s = false
    | Raise _ => (length new <= 1)%nat
    end.
Proof.
  intros H. unfold invoke_ak_api in H.
  destruct (enable_cache s) eqn:Hen; simpl in H.
  - pose proof (getitem_same_entries (api_cache s)
                  (TTLCache.hashkey item_id eval_str) (timer_get w)) as (Hm & Ht & _).
    destruct (TTLCache.__getitem__ (api_cache s) _ (timer_get w)) as [c rc].
    simpl in Hm, Ht.
    assert (forall e, (with_api_cache s c, @Raise (option string * cache_status) e) = (s', r) ->
              enable_cache s' = true /\
              TTLCache.maxsize (api_cache s') = TTLCache.maxsize (api_cache s) /\
              TTLCache.ttl (api_cache s') = TTLCache.ttl (api_cache s) /\
              exists new, provider_calls s' = provider_calls s ++ new /\
                match r with
                | Ok (_, HIT) => new = [] /\ true = true
                | Ok (_, MISS) => length new = 1%nat /\ true = true
                | Ok (_, DISABLED) => length new = 1%nat /\ true = false
                | Raise _ => (length new <= 1)%nat
                end) as Hstop.
    { intros e [= <- <-]. simpl. repeat split; try done.
      exists []. rewrite app_nil_r. split; [done | simpl; lia]. }
    destruct rc as [v | [d | d | d | d]]; try (by eapply Hstop).
    + injection H as <- <-. simpl. repeat split; try done.
      exists []. by rewrite app_nil_r.
    + destruct (_fetch w item_id eval_str (with_api_cache s c)) as [s1 r1] eqn:F.
      apply fetch_frame in F as (Hc & Hen1 & Hcalls). simpl in Hc, Hen1.
      assert (exists new, provider_calls s1 = provider_calls s ++ new /\
                (length new <= 1)%nat /\
                (forall res, r1 = Ok res -> length new = 1%nat)) as (new & Hnew & Hle & Hone).
      { destruct Hcalls as [(_ & Hp & (e & ->)) | (_ & Hp & _)]; simpl in Hp.
        - exists []. rewrite app_nil_r. repeat split; [done | simpl; lia | discriminate].
        - eexists. split; [exact Hp |]. by split. }
      destruct r1 as [res | e].
      * pose proof (step_maxsize (api_cache s1)
                      (TTLCache.Set_ (TTLCache.hashkey item_id eval_str) res (timer_set w)))
          as [Hm' Ht']. simpl in Hm', Ht'.
        destruct (TTLCache.__setitem__ (api_cache s1) _ res (timer_set w)) as [c' [[] | e]];
          injection H as <- <-; simpl in *; rewrite Hm', Ht', Hc, Hen1;
          (repeat split; try done); exists new; (split; [exact Hnew |]);
          [split; [by eapply Hone | done] | exact Hle].
      * injection H as <- <-. rewrite Hc, Hen1. repeat split; try done.
        exists new. by split.
  - destruct (_fetch w item_id eval_str s) as [s1 r1] eqn:F.
    apply fetch_frame in F as (Hc & Hen1 & Hcalls).
    assert (exists new, provider_calls s1 = provider_calls s ++ new /\
              (length new <= 1)%nat /\
              (forall res, r1 = Ok res -> length new = 1%nat)) as (new & Hnew & Hle & Hone).
    { destruct Hcalls as [(_ & Hp & (e & ->)) | (_ & Hp & _)].
      - exists []. rewrite app_nil_r. repeat split; [done | simpl; lia | discriminate].
      - eexists. split; [exact Hp |]. by split. }
    destruct r1 as [res | e]; injection H as <- <-; rewrite Hc, Hen1;
      (repeat split; try done); exists new; (split; [exact Hnew |]).
    + split; [by eapply Hone | done].
    + exact Hle.
Qed.

Lemma calls_since_app s s' new :
  provider_calls s' = provider_calls s ++ new -> calls_since s s' = new.
Proof. intros H. unfold calls_since. rewrite H. apply drop_app_length. Qed.


(** X15. Every response of an endpoint has status 200 or 404, and 200
    exactly when the body is the payload.  A cache status in the headers
    tells what happened: DISABLED only with the cache switched off and
    after one provider call, HIT only with the cache on and without any
    provider call, MISS only with the cache on and after one provider
    call.  A 200 response always carries the header. *)
Theorem response_status_and_cache_header (ep : endpoint) (w : world)
    (interface_list : list string) (request : Request) (item_id : string)
    (s s' : State) (resp : JSONResponse) :
  root ep w interface_list request item_id s = (s', Ok resp) ->
  (status_code resp = 200 \/ status_code resp = 404) /\
  (status_code resp = 200 <-> exists json, body resp = JsonContent json) /\
  (forall v, ("X-Cache-Status", v) ∈ headers resp ->
     (v = "DISABLED" /\ enable_cache s = false /\ length (calls_since s s') = 1%nat) \/
     (v = "HIT" /\ enable_cache s = true /\ calls_since s s' = []) \/
     (v = "MISS" /\ enable_cache s = true /\ length (calls_since s s') = 1%nat)) /\
  (status_code resp = 200 -> exists v, headers resp = [("X-Cache-Status", v)]).
Proof.
  intros H. rewrite root_unfold in H.
  case_bool_decide.
  { injection H as <- <-. simpl. split; [by right |]. split; [| split].
    - split; [discriminate | intros [? ?]; discriminate].
    - intros v Hv. by apply elem_of_nil in Hv.
    - discriminate. }
  destruct (eval_str_of ep request) as [a | e]; [| discriminate].
  destruct (invoke_ak_api w item_id a s) as [s1 r1] eqn:I.
  destruct (invoke_cases _ _ _ _ _ _ I) as (_ & _ & _ & new & Hnew & Hr).
  pose proof (calls_since_app _ _ _ Hnew) as Hcalls.
  assert (forall st v,
            ("X-Cache-Status", v) ∈ [("X-Cache-Status", cache_status_str st)] ->
            match st with
            | HIT => new = [] /\ enable_cache s = true
            | MISS => length new = 1%nat /\ enable_cache s = true
            | DISABLED => length new = 1%nat /\ enable_cache s = false
            end ->
            (v = "DISABLED" /\ enable_cache s = false /\ length new = 1%nat) \/
            (v = "HIT" /\ enable_cache s = true /\ new = []) \/
            (v = "MISS" /\ enable_cache s = true /\ length new = 1%nat)) as Hheader.
  { intros st v Hv Hst. apply list_elem_of_singleton in Hv. injection Hv as ->.
    destruct st; destruct Hst as [? ?]; simpl; auto. }
  unfold respond in H. destruct r1 as [[[temp_df |] st] | e].
  - injection H as <- <-. simpl. rewrite Hcalls.
    split; [by left |]. split; [split; [eauto | done] |]. split; [| eauto].
    intros v Hv. by eapply Hheader.
  - injection H as <- <-. simpl. rewrite Hcalls.
    split; [by right |]. split; [split; [discriminate | intros [? ?]; discriminate] |].
    split; [| discriminate]. intros v Hv. by eapply Hheader.
  - destruct e; try discriminate. injection H as <- <-. simpl.
    split; [by right |]. split; [split; [discriminate | intros [? ?]; discriminate] |].
    split; [| discriminate]. intros v Hv. by apply elem_of_nil in Hv.
Qed.

Lemma response_status_and_cache_header_witness :
  status_code (mkResponse 200 (JsonContent "[]") [("X-Cache-Status", "MISS")]) = 200
  \/ status_code (mkResponse 200 (JsonContent "[]") [("X-Cache-Status", "MISS")]) = 404.
Proof.
  refine (proj1 (response_status_and_cache_header private
                   (Samples.world_at 0 Samples.returns_frame) ["stock_zh_a_hist"]
                   Samples.no_params "stock_zh_a_hist" (Samples.state0 true) _
                   (mkResponse 200 (JsonContent "[]") [("X-Cache-Status", "MISS")]) _)).
  reflexivity.
Defined.

(** X16. With a limiter created with a limit of zero or less, a request
    for a listed name that is not served from the cache never reaches
    the provider: [acquire] raises [IndexError], the exception leaves
    the endpoint (a server error at the surface), and the limiter is as
    it was, so the next such request fails in the same way. *)
Theorem nonpositive_limit_fails_uncached_requests (ep : endpoint) (w : world)
    (interface_list : list string) (request : Request) (item_id : string)
    (s : State) (a : option string) (max_requests window_seconds : Z) :
  rate_limiter s = RateLimiter.__init__ max_requests window_seconds ->
  max_requests <= 0 ->
  item_id ∈ interface_list ->
  eval_str_of ep request = Ok a ->
  enable_cache s = false \/
    TTLCache.peek (api_cache s) (TTLCache.hashkey item_id a) (timer_get w) = None ->
  exists s',
    root ep w interface_list request item_id s
    = (s', Raise (IndexError "deque index out of range")) /\
    provider_calls s' = provider_calls s /\
    rate_limiter s' = rate_limiter s /\
    surface_status (snd (root ep w interface_list request item_id s)) = 500.
Proof.
  intros Hrl Hmax Hin Ha Hmiss. rewrite root_unfold, Ha.
  rewrite bool_decide_eq_false_2 by (intros Hout; exact (Hout Hin)).
  assert (forall s0, rate_limiter s0 = RateLimiter.__init__ max_requests window_seconds ->
            _fetch w item_id a s0
            = (with_rate_limiter s0 (RateLimiter.__init__ max_requests window_seconds),
               Raise (IndexError "deque index out of range"))) as Hfetch.
  { intros s0 Hs0. unfold _fetch. rewrite Hs0.
    by rewrite (RateLimiterMore.acquire_init_raises _ _ _ Hmax). }
  unfold invoke_ak_api. destruct (enable_cache s) eqn:Hen; simpl.
  - destruct Hmiss as [? | Hpeek]; [discriminate |].
    pose proof (getitem_peek (api_cache s) (TTLCache.hashkey item_id a) (timer_get w)) as Hp.
    rewrite Hpeek in Hp.
    destruct (TTLCache.__getitem__ _ _ _) as [c rc]. simpl in Hp. subst rc.
    rewrite (Hfetch (with_api_cache s c) Hrl). simpl.
    eexists. split; [reflexivity |]. simpl. by rewrite Hrl.
  - rewrite (Hfetch s Hrl). simpl.
    eexists. split; [reflexivity |]. simpl. by rewrite Hrl.
Qed.

Lemma nonpositive_limit_fails_uncached_requests_witness :
  let s := mkState (RateLimiter.__init__ 0 60) (TTLCache.__init__ 128 3600) false [] in
  exists s',
    root public (Samples.world_at 0 Samples.returns_frame) ["stock_zh_a_hist"]
         Samples.no_params "stock_zh_a_hist" s
    = (s', Raise (IndexError "deque index out of range")).
Proof.
  destruct (nonpositive_limit_fails_uncached_requests public
              (Samples.world_at 0 Samples.returns_frame) ["stock_zh_a_hist"]
              Samples.no_params "stock_zh_a_hist"
              (mkState (RateLimiter.__init__ 0 60) (TTLCache.__init__ 128 3600) false [])
              None 0 60 eq_refl) as (s' & H & _).
  - lia.
  - apply list_elem_of_here.
  - reflexivity.
  - by left.
  - exists s'. exact H.
Defined.

End GatewayMore.
